(** * EV route planning: shortest path and greedy charging plan

    A shallow embedding of [finaldaaproject.py]: the road graph built with
    [networkx.Graph.add_edge], the heap-based [dijkstra] search and the
    battery simulation of [calculate_path].

    Conventions of the embedding.
    - Python numbers (the [int] distances, the [float] capacity and prices)
      are exact rationals [Q]; Python's numeric [==] is [Qeq].  What the
      rounding of binary floats does at extreme magnitudes is not
      modelled, and no property below relies on it.
    - A Python [dict] is an association list kept in insertion order whose
      keys are pairwise distinct.
    - [heapq] is taken by its contract: [heappush] adds an item,
      [heappop] removes and returns the smallest item for the order of
      Python tuples (lexicographic: cost, then city name, then path).
    - A failing subscript raises [KeyError]; results live in [outcome].
      Its third case, [OutOfFuel], marks a loop that used up its
      iteration bound; [dijkstra_terminates] shows it never arises.
    - The f-string appended to [charging_plan] is kept as the record of
      the three values it interpolates (city, energy, price).  The text
      itself shows the energy through [:.1f], rounded to one decimal:
      [written] gives the stop as the returned text states it.
    - [messagebox.showerror] only opens a dialog and is left out. *)

From Stdlib Require Import String Ascii Bool Arith Lia.
From Stdlib Require Import List.
From Stdlib Require Import ZArith QArith Qabs Qround Lqa.
From Stdlib Require Import Permutation.
Import ListNotations.

Open Scope string_scope.
Open Scope list_scope.
Open Scope Q_scope.

Definition city := string.

(** ** Python dictionaries *)

Module Dict.

Definition t (V : Type) := list (string * V).

(** [d[k]], [None] standing for the missing key. *)
Fixpoint get {V : Type} (k : string) (d : t V) : option V :=
  match d with
  | [] => None
  | (k', v) :: rest => if String.eqb k k' then Some v else get k rest
  end.

(** [d[k] = v]: an existing key keeps its position, a new one goes last. *)
Fixpoint set {V : Type} (k : string) (v : V) (d : t V) : t V :=
  match d with
  | [] => [(k, v)]
  | (k', v') :: rest =>
      if String.eqb k k' then (k', v) :: rest else (k', v') :: set k v rest
  end.

(** [k in d] *)
Definition mem {V : Type} (k : string) (d : t V) : bool :=
  match get k d with Some _ => true | None => false end.

Definition keys {V : Type} (d : t V) : list string := map fst d.

End Dict.

(** ** Outcomes: a value, or the exception the code raises *)

Inductive outcome (A : Type) : Type :=
| Ret (a : A)
| KeyError (key : string)
| OutOfFuel.

Arguments Ret {A} a.
Arguments KeyError {A} key.
Arguments OutOfFuel {A}.

Definition bind {A B : Type} (m : outcome A) (k : A -> outcome B) : outcome B :=
  match m with
  | Ret a => k a
  | KeyError key => KeyError key
  | OutOfFuel => OutOfFuel
  end.

Notation "x <- m ;; k" := (bind m (fun x => k))
  (at level 61, m at next level, right associativity).

(** Subscript [d[k]] as a computation. *)
Definition subscript {V : Type} (d : Dict.t V) (k : string) : outcome V :=
  match Dict.get k d with
  | Some v => Ret v
  | None => KeyError k
  end.

(** ** The graph ([networkx.Graph], attribute ["distance"] only) *)

Definition adjacency := Dict.t Q.
Definition graph := Dict.t adjacency.

Definition add_node (n : city) (g : graph) : graph :=
  if Dict.mem n g then g else g ++ [(n, [])].

Definition set_adj (u v : city) (d : Q) (g : graph) : graph :=
  match Dict.get u g with
  | Some adj => Dict.set u (Dict.set v d adj) g
  | None => g
  end.

(** [G.add_edge(u, v, distance=d)] *)
Definition add_edge (g : graph) (u v : city) (d : Q) : graph :=
  set_adj v u d (set_adj u v d (add_node v (add_node u g))).

Definition from_edges (es : list (city * city * Q)) : graph :=
  fold_left (fun g '(u, v, d) => add_edge g u v d) es [].

Definition edges : list (city * city * Q) :=
  [ ("Mumbai", "Nashik", 180);
    ("Mumbai", "Goa", 580);
    ("Nashik", "Pune", 300);
    ("Pune", "Satara", 120);
    ("Satara", "Kolhapur", 180);
    ("Kolhapur", "Goa", 200);
    ("Goa", "Hyderabad", 610);
    ("Hyderabad", "Kolhapur", 300) ].

Definition G : graph := from_edges edges.

Definition charging_prices : Dict.t Q :=
  [ ("Mumbai", 18 # 10);
    ("Nashik", 15 # 10);
    ("Pune", 12 # 10);
    ("Satara", 15 # 10);
    ("Kolhapur", 18 # 10);
    ("Goa", 2);
    ("Hyderabad", 22 # 10) ].

(** [G[u][v]["distance"]] as a partial function. *)
Definition edge_distance (g : graph) (u v : city) : option Q :=
  match Dict.get u g with
  | Some adj => Dict.get v adj
  | None => None
  end.

(** ** The frontier: a heap of tuples [(cost, node, path)] *)

Definition entry := (Q * city * list city)%type.

Definition entry_cost (x : entry) : Q := fst (fst x).
Definition entry_node (x : entry) : city := snd (fst x).
Definition entry_path (x : entry) : list city := snd x.

(** Order of Python lists of strings: lexicographic, a proper prefix
    first. *)
Definition path_compare : list city -> list city -> comparison :=
  list_compare String.compare.

(** Order of Python tuples: the first components that differ decide. *)
Definition entry_compare (x y : entry) : comparison :=
  match entry_cost x ?= entry_cost y with
  | Eq =>
      match String.compare (entry_node x) (entry_node y) with
      | Eq => path_compare (entry_path x) (entry_path y)
      | c => c
      end
  | c => c
  end.

(** [x < y] on tuples *)
Definition entry_ltb (x y : entry) : bool :=
  match entry_compare x y with Lt => true | _ => false end.

Definition heap := list entry.

Definition heappush (pq : heap) (x : entry) : heap := x :: pq.

(** The smallest item of [x :: pq] and the items left. *)
Fixpoint extract_min (x : entry) (pq : heap) : entry * heap :=
  match pq with
  | [] => (x, [])
  | y :: rest =>
      let '(m, others) := extract_min y rest in
      if entry_ltb m x then (m, x :: others) else (x, y :: rest)
  end.

Definition heappop (pq : heap) : option (entry * heap) :=
  match pq with
  | [] => None
  | x :: rest => Some (extract_min x rest)
  end.

(** ** dijkstra *)

(** A returned total: a number, or [float("inf")]. *)
Inductive distance : Type :=
| Finite (d : Q)
| Infinity.

(** [node in visited] *)
Definition in_set (n : city) (s : list city) : bool :=
  existsb (String.eqb n) s.

(** The [for neighbor, data in graph[node].items()] loop. *)
Fixpoint push_neighbors (cost : Q) (path visited : list city)
    (items : adjacency) (pq : heap) : heap :=
  match items with
  | [] => pq
  | (neighbor, d) :: rest =>
      push_neighbors cost path visited rest
        (if in_set neighbor visited then pq
         else heappush pq (cost + d, neighbor, path))
  end.

(** The [while pq:] loop; [fuel] bounds the number of iterations. *)
Fixpoint dijkstra_loop (fuel : nat) (g : graph) (end_ : city)
    (pq : heap) (visited : list city) : outcome (distance * list city) :=
  match heappop pq with
  | None => Ret (Infinity, [])
  | Some ((cost, node, path), pq) =>
      match fuel with
      | O => OutOfFuel
      | S fuel =>
          if in_set node visited then dijkstra_loop fuel g end_ pq visited
          else
            let visited := node :: visited in
            let path := path ++ [node] in
            if String.eqb node end_ then Ret (Finite cost, path)
            else
              match Dict.get node g with
              | None => KeyError node
              | Some items =>
                  dijkstra_loop fuel g end_
                    (push_neighbors cost path visited items pq) visited
              end
      end
  end.

(** Number of adjacency entries of the graph (twice its edges). *)
Definition total_degree (g : graph) : nat :=
  fold_right
    (fun (item : city * adjacency) n => (length (snd item) + n)%nat) O g.

(** Every iteration pops one item and at most [1 + total_degree g] items
    are ever pushed, so that many iterations are enough
    ([dijkstra_terminates] below). *)
Definition dijkstra (g : graph) (start end_ : city)
  : outcome (distance * list city) :=
  dijkstra_loop (S (total_degree g)) g end_ [(0, start, [])] [].

(** ** calculate_path *)

Record stop : Type := mk_stop {
  stop_city : city;
  stop_energy : Q;
  stop_price : Q
}.

(** State of the simulation: remaining battery, total cost, plan. *)
Definition sim_state := (Q * Q * list stop)%type.

(** The [for i in range(len(path) - 1)] loop, from position [i] on.  A
    stop keeps the energy as charged and costed; the line appended to
    [charging_plan] shows it rounded ([written]). *)
Fixpoint drive (g : graph) (prices : Dict.t Q) (battery_capacity : Q)
    (path : list city) (st : sim_state) : outcome sim_state :=
  match path with
  | here :: (next :: _) as rest =>
      let '(remaining_battery, total_cost, charging_plan) := st in
      adj <- subscript g here ;;
      dist <- subscript adj next ;;
      st' <-
        (match remaining_battery ?= dist with
         | Lt =>
             price <- subscript prices here ;;
             let energy := battery_capacity - remaining_battery in
             Ret (battery_capacity,
                  total_cost + energy * price,
                  charging_plan ++ [mk_stop here energy price])
         | _ => Ret st
         end) ;;
      let '(remaining_battery, total_cost, charging_plan) := st' in
      drive g prices battery_capacity rest
        (remaining_battery - dist, total_cost, charging_plan)
  | _ => Ret st
  end.

(** The check at the destination after the loop; the stop keeps the
    energy as costed, the appended line shows it rounded ([written]). *)
Definition arrive (prices : Dict.t Q) (end_ : city) (st : sim_state)
  : outcome sim_state :=
  let '(remaining_battery, total_cost, charging_plan) := st in
  match remaining_battery ?= 0 with
  | Lt =>
      price <- subscript prices end_ ;;
      Ret (remaining_battery,
           total_cost + Qabs remaining_battery * price,
           charging_plan ++ [mk_stop end_ (Qabs remaining_battery) price])
  | _ => Ret st
  end.

(** The returned 4-tuple; [None] is Python's [None]. *)
Definition plan_result :=
  (option (list city) * option distance * option Q * option (list stop))%type.

Definition no_route : plan_result := (None, None, None, None).

(** What [calculate_path] does with the pair that [dijkstra] returned. *)
Definition simulate (g : graph) (prices : Dict.t Q) (end_ : city)
    (battery_capacity : Q) (r : distance * list city) : outcome plan_result :=
  let '(total_distance, path) := r in
  match path with
  | [] => Ret no_route
  | _ :: _ =>
      st <- drive g prices battery_capacity path (battery_capacity, 0, []) ;;
      st <- arrive prices end_ st ;;
      let '(_, total_cost, charging_plan) := st in
      Ret (Some path, Some total_distance, Some total_cost, Some charging_plan)
  end.

Definition calculate_path_on (g : graph) (prices : Dict.t Q)
    (start end_ : city) (battery_capacity : Q) : outcome plan_result :=
  r <- dijkstra g start end_ ;;
  simulate g prices end_ battery_capacity r.

(** [calculate_path] reads the module-level [G] and [charging_prices]. *)
Definition calculate_path (start end_ : city) (battery_capacity : Q)
  : outcome plan_result :=
  calculate_path_on G charging_prices start end_ battery_capacity.

(** ** Vocabulary of the properties *)

(** Consecutive pairs of a path: [zip(path[:-1], path[1:])]. *)
Fixpoint legs (path : list city) : list (city * city) :=
  match path with
  | here :: (next :: _) as rest => (here, next) :: legs rest
  | _ => []
  end.

Definition is_edge (g : graph) (leg : city * city) : Prop :=
  edge_distance g (fst leg) (snd leg) <> None.

Definition leg_distance (g : graph) (leg : city * city) : Q :=
  match edge_distance g (fst leg) (snd leg) with
  | Some d => d
  | None => 0
  end.

(** [path] starts at [start], ends at [end_] and only follows roads. *)
Definition is_route (g : graph) (start end_ : city) (path : list city) : Prop :=
  hd_error path = Some start /\
  last path start = end_ /\
  Forall (is_edge g) (legs path).

(** Sum of the road distances along a path, in path order. *)
Definition route_length (g : graph) (path : list city) : Q :=
  fold_left (fun acc leg => acc + leg_distance g leg) (legs path) 0.

Definition connected (g : graph) (start end_ : city) : Prop :=
  exists path, is_route g start end_ path.

Definition nonneg_distances (g : graph) : Prop :=
  forall u v d, edge_distance g u v = Some d -> 0 <= d.

(** What a [networkx] graph guarantees about its adjacency dictionaries:
    distinct keys, and every neighbour is itself a node. *)
Definition wf_graph (g : graph) : Prop :=
  forall n adj, Dict.get n g = Some adj ->
    NoDup (Dict.keys adj) /\
    forall v, In v (Dict.keys adj) -> Dict.get v g <> None.

(** [n in G.nodes] *)
Definition is_city (g : graph) (n : city) : Prop := Dict.get n g <> None.

(** Every city of the graph has a charging price. *)
Definition prices_cover (prices : Dict.t Q) (g : graph) : Prop :=
  forall n, is_city g n -> Dict.get n prices <> None.

(** What a stop costs at the price of its city. *)
Definition stop_cost (prices : Dict.t Q) (s : stop) : Q :=
  match Dict.get (stop_city s) prices with
  | Some price => stop_energy s * price
  | None => 0
  end.

(** Sum of [energy * price of the city] over a plan, in plan order. *)
Definition plan_cost (prices : Dict.t Q) (plan : list stop) : Q :=
  fold_left (fun acc s => acc + stop_cost prices s) plan 0.

(** The price a stop records is the one listed for its city. *)
Definition priced (prices : Dict.t Q) (s : stop) : Prop :=
  Dict.get (stop_city s) prices = Some (stop_price s).

(** [xs] is [ys] with some elements dropped, order kept. *)
Inductive subseq {A : Type} : list A -> list A -> Prop :=
| subseq_nil : subseq [] []
| subseq_skip : forall x xs ys, subseq xs ys -> subseq xs (x :: ys)
| subseq_take : forall x xs ys, subseq xs ys -> subseq (x :: xs) (x :: ys).

(** ** Loop invariant of [dijkstra] *)

(** A frontier item [(cost, node, path)]: [path + [node]] is a route from
    [start] whose length is [cost], and [path] runs through distinct
    visited cities. *)
Definition entry_ok (g : graph) (start : city) (visited : list city)
    (x : entry) : Prop :=
  is_route g start (entry_node x) (entry_path x ++ [entry_node x]) /\
  entry_cost x = route_length g (entry_path x ++ [entry_node x]) /\
  NoDup (entry_path x) /\
  incl (entry_path x) visited /\
  (entry_path x = [] \/ Dict.get (entry_node x) g <> None).

(** A visited city [u] was popped at some cost [d]: no route to [u] is
    shorter (when distances are non-negative), and every unvisited
    neighbour still has an item on the frontier that goes through [u]. *)
Definition settled (g : graph) (start : city) (pq : heap)
    (visited : list city) (u : city) : Prop :=
  exists d,
    (nonneg_distances g ->
     forall q, is_route g start u q -> d <= route_length g q) /\
    (forall v w, edge_distance g u v = Some w -> ~ In v visited ->
       exists x, In x pq /\ entry_node x = v /\ entry_cost x <= d + w).

Record dijkstra_inv (g : graph) (start end_ : city) (pq : heap)
    (visited : list city) : Prop := {
  inv_entries : Forall (entry_ok g start visited) pq;
  inv_settled : forall u, In u visited -> settled g start pq visited u;
  inv_start : In start visited \/ In (0, start, []) pq;
  inv_end : ~ In end_ visited
}.

(** What [dijkstra] promises about the pair it returns. *)
Definition dijkstra_post (g : graph) (start end_ : city)
    (r : distance * list city) : Prop :=
  match fst r with
  | Finite d =>
      is_route g start end_ (snd r) /\
      d = route_length g (snd r) /\
      NoDup (snd r) /\
      (nonneg_distances g ->
       forall q, is_route g start end_ q -> d <= route_length g q)
  | Infinity => snd r = [] /\ ~ connected g start end_
  end.

(** Adjacency entries of the cities not visited yet. *)
Definition pending_degree (g : graph) (visited : list city) : nat :=
  fold_right
    (fun (item : city * adjacency) n =>
       if in_set (fst item) visited then n else (length (snd item) + n)%nat)
    O g.

(** ** Executable checks of the graph hypotheses *)

Fixpoint nodupb (l : list string) : bool :=
  match l with
  | [] => true
  | x :: rest => negb (in_set x rest) && nodupb rest
  end.

Definition wf_graphb (g : graph) : bool :=
  forallb
    (fun item : city * adjacency =>
       nodupb (Dict.keys (snd item)) &&
       forallb (fun v => Dict.mem v g) (Dict.keys (snd item)))
    g.

Definition nonneg_distancesb (g : graph) : bool :=
  forallb
    (fun item : city * adjacency =>
       forallb (fun e : city * Q => Qle_bool 0 (snd e)) (snd item))
    g.

Definition prices_coverb (prices : Dict.t Q) (g : graph) : bool :=
  forallb (fun n => Dict.mem n prices) (Dict.keys g).

(** ** The search under the contract of [heapq] alone

    [heapq] promises that [heappop] returns the smallest item; how the
    other items are arranged inside the heap is its own business.  The
    relation [search] describes every run of the [while] loop that this
    contract allows. *)

(** The value an item's cost must have: the length of its route. *)
Definition cost_ok (g : graph) (x : entry) : Prop :=
  entry_cost x = route_length g (entry_path x ++ [entry_node x]).

(** [x] comes off a heap holding the items [pq]; [rest] is what stays. *)
Definition pops (pq : heap) (x : entry) (rest : heap) : Prop :=
  Permutation pq (x :: rest) /\
  Forall (fun y => entry_ltb y x = false) rest.

Inductive search (g : graph) (end_ : city)
  : heap -> list city -> outcome (distance * list city) -> Prop :=
| search_empty : forall visited,
    search g end_ [] visited (Ret (Infinity, []))
| search_skip : forall pq x rest visited r,
    pops pq x rest ->
    In (entry_node x) visited ->
    search g end_ rest visited r ->
    search g end_ pq visited r
| search_found : forall pq cost path rest visited,
    pops pq (cost, end_, path) rest ->
    ~ In end_ visited ->
    search g end_ pq visited (Ret (Finite cost, path ++ [end_]))
| search_raise : forall pq cost node path rest visited,
    pops pq (cost, node, path) rest ->
    ~ In node visited ->
    node <> end_ ->
    Dict.get node g = None ->
    search g end_ pq visited (KeyError node)
| search_expand : forall pq cost node path rest visited items pq' r,
    pops pq (cost, node, path) rest ->
    ~ In node visited ->
    node <> end_ ->
    Dict.get node g = Some items ->
    Permutation pq'
      (push_neighbors cost (path ++ [node]) (node :: visited) items rest) ->
    search g end_ pq' (node :: visited) r ->
    search g end_ pq visited r.

Definition dijkstra_run (g : graph) (start end_ : city)
    (r : outcome (distance * list city)) : Prop :=
  search g end_ [(0, start, [])] [] r.

(** One invocation of [calculate_path]: some run of the search, then the
    simulation on what it returned. *)
Definition calculate_path_run (g : graph) (prices : Dict.t Q)
    (start end_ : city) (battery_capacity : Q)
    (out : outcome plan_result) : Prop :=
  exists r,
    dijkstra_run g start end_ r /\
    out = (x <- r ;; simulate g prices end_ battery_capacity x).

(** Two roads that do not meet: a graph with cities that no route joins. *)
Definition two_islands : graph :=
  from_edges [("Mumbai", "Nashik", 180); ("Goa", "Hyderabad", 610)].

(** ** The plan as its text states it *)

(** The number that [f"{x:.1f}"] writes: [x] rounded to a multiple of
    one tenth, a tie going to the even tenth. *)
Definition round_1f (x : Q) : Q :=
  let tenths := x * 10 in
  let n := Qfloor tenths in
  match tenths - inject_Z n ?= 1 # 2 with
  | Lt => n # 10
  | Gt => (n + 1) # 10
  | Eq => if Z.even n then n # 10 else (n + 1) # 10
  end.

(** A stop as the line appended to [charging_plan] states it: the city,
    the energy through [:.1f], the price as it is. *)
Definition written (s : stop) : stop :=
  mk_stop (stop_city s) (round_1f (stop_energy s)) (stop_price s).

(** The total cost in its first form (C3 as stated): the sum, over the
    stops of the returned plan, of the amount the plan states times the
    price of the city. *)
Definition cost_is_sum_over_returned_plan : Prop :=
  forall start end_ battery_capacity path d cost plan,
    calculate_path start end_ battery_capacity
      = Ret (Some path, d, Some cost, Some plan) ->
    cost == plan_cost charging_prices (map written plan).

(** The bound on recorded energy in its first form (C4 as stated): every
    stop records more than 0 units and at most the battery capacity. *)
Definition every_stop_within_capacity : Prop :=
  forall start end_ battery_capacity path d cost plan,
    connected G start end_ -> 0 < battery_capacity ->
    calculate_path start end_ battery_capacity
      = Ret (Some path, d, cost, Some plan) ->
    Forall (fun s => 0 < stop_energy s /\ stop_energy s <= battery_capacity)
      plan.

(** ** Further vocabulary: the graph as built, energy, the display *)

(** [G[a][b]] and [G[b][a]] are the same road. *)
Definition undirected (g : graph) : Prop :=
  forall a b, edge_distance g a b = edge_distance g b a.

(** The pair [a], [b] is listed in [es], in one order or the other. *)
Definition listed (es : list (city * city * Q)) (a b : city) : Prop :=
  exists d, In (a, b, d) es \/ In (b, a, d) es.

(** [n] is an end of some listed road. *)
Definition endpoint (es : list (city * city * Q)) (n : city) : Prop :=
  exists u v d, In (u, v, d) es /\ (n = u \/ n = v).

(** Do the two ends [u], [v] of a road match [a], [b] in either order? *)
Definition joins (u v a b : city) : bool :=
  (String.eqb a u && String.eqb b v) || (String.eqb a v && String.eqb b u).

(** A leg read in the other direction. *)
Definition swap_leg (leg : city * city) : city * city := (snd leg, fst leg).

Definition nonneg_prices (prices : Dict.t Q) : Prop :=
  forall n price, Dict.get n prices = Some price -> 0 <= price.

Definition nonneg_pricesb (prices : Dict.t Q) : bool :=
  forallb (fun e : city * Q => Qle_bool 0 (snd e)) prices.

(** ** draw_graph: the edges to highlight *)

(** [list(zip(path[:-1], path[1:]))] *)
Definition route_edges (path : list city) : list (city * city) :=
  combine (removelast path) (tl path).

(** ** find_route *)

(** What the window shows: a [messagebox.showerror], a call of
    [draw_graph], and the two operations on the [result_text] box. *)
Inductive event : Type :=
| ShowError (title message : string)
| DrawGraph (path : list city)
| DeleteText
| InsertText (text : string).

(** Conversions between numbers and text that Python provides:
    [float(s)] ([None] for [ValueError]), [str(x)] as in [f"{x}"],
    [f"{x:.1f}"] and [f"{x:.2f}"].  They are taken as given; texts that
    [float] reads as [nan] or an infinity have no counterpart in [Q] and
    stay outside the model. *)
Record text_io : Type := {
  float : string -> option Q;
  str_num : Q -> string;
  fmt_1f : Q -> string;
  fmt_2f : Q -> string
}.

Definition newline : string := String "010"%char EmptyString.

(** [f"{total_distance}"] *)
Definition str_distance (io : text_io) (d : distance) : string :=
  match d with
  | Finite x => str_num io x
  | Infinity => "inf"
  end.

(** The line that [calculate_path] appends to [charging_plan] for a stop. *)
Definition stop_line (io : text_io) (s : stop) : string :=
  (stop_city s ++ ": " ++ fmt_1f io (stop_energy s) ++ " units @ ₹"
   ++ str_num io (stop_price s) ++ "/unit")%string.

(** The inserts into [result_text] once a route is found. *)
Definition report (io : text_io) (path : list city)
    (total_distance : distance) (total_cost : Q) (charging_plan : list stop)
  : list event :=
  [ DeleteText;
    InsertText (" Optimal Route: " ++ String.concat " ➜ " path
                ++ newline)%string;
    InsertText (" Total Distance: " ++ str_distance io total_distance
                ++ " km" ++ newline)%string;
    InsertText (" Total Charging Cost: ₹" ++ fmt_2f io total_cost
                ++ newline ++ newline)%string ]
  ++ match charging_plan with
     | [] =>
         [InsertText
            ("Battery capacity sufficient — no charging needed!"
             ++ newline)%string]
     | _ :: _ =>
         InsertText (" Charging Plan:" ++ newline)%string
         :: map (fun s => InsertText
                            (" • " ++ stop_line io s ++ newline)%string)
              charging_plan
     end.

(** [find_route] on the texts of the two boxes and the entry field.  The
    dialog of the no-route case is the one [calculate_path] opens before
    it returns its four [None]s. *)
Definition find_route_on (io : text_io) (g : graph) (prices : Dict.t Q)
    (start end_ battery_text : string) : outcome (list event) :=
  match float io battery_text with
  | None =>
      Ret [ShowError "Invalid Input"
             "Please enter a valid battery capacity (number)."]
  | Some battery_capacity =>
      if String.eqb start end_ then
        Ret [ShowError "Invalid Input"
               "Start and destination cities cannot be the same."]
      else
        r <- calculate_path_on g prices start end_ battery_capacity ;;
        match r with
        | (Some (c :: p), Some total_distance, Some total_cost,
           Some charging_plan) =>
            Ret (DrawGraph (c :: p)
                 :: report io (c :: p) total_distance total_cost
                      charging_plan)
        | (None, _, _, _) =>
            Ret [ShowError "Error" "No path found between selected cities!"]
        | _ => Ret []
        end
  end.

Definition find_route (io : text_io) (start end_ battery_text : string)
  : outcome (list event) :=
  find_route_on io G charging_prices start end_ battery_text.

Definition is_error (e : event) : bool :=
  match e with ShowError _ _ => true | _ => false end.

(** A stand-in for Python's conversions, for examples: digits only. *)
Fixpoint digits_value (acc : Z) (s : string) : option Z :=
  match s with
  | EmptyString => Some acc
  | String c rest =>
      let n := Z.of_nat (nat_of_ascii c) in
      if ((48 <=? n) && (n <=? 57))%Z
      then digits_value (10 * acc + (n - 48))%Z rest
      else None
  end.

Definition digits_io : text_io := {|
  float := fun s =>
    match s with
    | EmptyString => None
    | String "-"%char rest =>
        match rest with
        | EmptyString => None
        | _ => option_map (fun z => inject_Z (- z)) (digits_value 0 rest)
        end
    | _ => option_map inject_Z (digits_value 0 s)
    end;
  str_num := fun _ => "#";
  fmt_1f := fun _ => "#.#";
  fmt_2f := fun _ => "#.##"
|}.

(** * Properties *)

(** ** Dictionaries *)

Lemma get_In {V : Type} (k : string) (d : Dict.t V) (v : V) :
  Dict.get k d = Some v -> In (k, v) d.
Proof.
  induction d as [|[k' v'] rest IH]; simpl; [discriminate|].
  destruct (String.eqb_spec k k') as [->|Hne].
  - intros [= ->]. now left.
  - intros H. right. now apply IH.
Qed.

Lemma In_get {V : Type} (k : string) (d : Dict.t V) (v : V) :
  NoDup (Dict.keys d) -> In (k, v) d -> Dict.get k d = Some v.
Proof.
  induction d as [|[k' v'] rest IH]; simpl; [intros _ []|].
  intros Hnd [Heq|Hin].
  - injection Heq as -> ->. now rewrite String.eqb_refl.
  - inversion Hnd as [|? ? Hnot Hnd']; subst.
    destruct (String.eqb_spec k k') as [->|Hne].
    + exfalso. apply Hnot. unfold Dict.keys.
      change k' with (fst (k', v)). now apply in_map.
    + now apply IH.
Qed.

Lemma get_In_keys {V : Type} (k : string) (d : Dict.t V) (v : V) :
  Dict.get k d = Some v -> In k (Dict.keys d).
Proof.
  intros H. apply get_In in H. unfold Dict.keys.
  change k with (fst (k, v)). now apply in_map.
Qed.

Lemma in_set_In (n : city) (s : list city) :
  in_set n s = true <-> In n s.
Proof.
  unfold in_set. rewrite existsb_exists. split.
  - intros [x [Hx Heq]]. apply String.eqb_eq in Heq. now subst.
  - intros H. exists n. split; [assumption|apply String.eqb_refl].
Qed.

Lemma in_set_not_In (n : city) (s : list city) :
  in_set n s = false <-> ~ In n s.
Proof.
  rewrite <- in_set_In. destruct (in_set n s); split; congruence.
Qed.

(** ** Paths *)

Lemma legs_snoc (p : list city) (a b : city) :
  legs ((p ++ [a]) ++ [b]) = legs (p ++ [a]) ++ [(a, b)].
Proof.
  induction p as [|x p IH]; simpl; [reflexivity|].
  destruct p as [|y p]; simpl in *; [reflexivity|].
  now rewrite IH.
Qed.

Lemma route_length_snoc (g : graph) (p : list city) (a b : city) :
  route_length g ((p ++ [a]) ++ [b]) =
  route_length g (p ++ [a]) + leg_distance g (a, b).
Proof.
  unfold route_length. rewrite legs_snoc, fold_left_app. reflexivity.
Qed.

Lemma last_snoc (p : list city) (a d : city) : last (p ++ [a]) d = a.
Proof. apply last_last. Qed.

Lemma is_route_single (g : graph) (s : city) : is_route g s s [s].
Proof. repeat split. constructor. Qed.

Lemma leg_distance_edge (g : graph) (a b : city) (w : Q) :
  edge_distance g a b = Some w -> leg_distance g (a, b) = w.
Proof. unfold leg_distance. simpl. now intros ->. Qed.

Lemma is_route_snoc (g : graph) (s a b : city) (p : list city) :
  is_route g s a (p ++ [a]) -> is_edge g (a, b) ->
  is_route g s b ((p ++ [a]) ++ [b]).
Proof.
  intros (Hhd & _ & Hlegs) Hedge. split; [|split].
  - destruct p; simpl in *; assumption.
  - apply last_snoc.
  - rewrite legs_snoc. apply Forall_app. split; [assumption|].
    constructor; [assumption|constructor].
Qed.

(** A route ending in [t] is the one-city route, or a shorter route
    followed by one road into [t]. *)
Lemma is_route_inv (g : graph) (s t : city) (q : list city) :
  is_route g s t q ->
  q = [s] /\ t = s \/
  exists q' u w,
    q = (q' ++ [u]) ++ [t] /\ is_route g s u (q' ++ [u]) /\
    edge_distance g u t = Some w /\
    route_length g q = route_length g (q' ++ [u]) + w.
Proof.
  intros (Hhd & Hlast & Hlegs).
  destruct (exists_last (l := q)) as (q1 & x & ->).
  { intros ->. discriminate. }
  rewrite last_snoc in Hlast. subst x.
  destruct q1 as [|y q1].
  - left. simpl in Hhd. injection Hhd as ->. now split.
  - right.
    destruct (exists_last (l := y :: q1)) as (q' & u & Heq);
      [discriminate|].
    rewrite Heq in *.
    rewrite legs_snoc in Hlegs. apply Forall_app in Hlegs.
    destruct Hlegs as [Hlegs Hedge].
    inversion Hedge as [|? ? Hut _]; subst.
    unfold is_edge in Hut. simpl in Hut.
    destruct (edge_distance g u t) as [w|] eqn:Hw; [|congruence].
    exists q', u, w. split; [reflexivity|]. split; [|split].
    + split; [|split; [apply last_snoc|assumption]].
      destruct q'; simpl in *; assumption.
    + assumption.
    + rewrite route_length_snoc. now rewrite (leg_distance_edge _ _ _ _ Hw).
Qed.

(** ** The order of the frontier items is a total order *)

Lemma ascii_compare_lt_trans (a b c : ascii) :
  Ascii.compare a b = Lt -> Ascii.compare b c = Lt -> Ascii.compare a c = Lt.
Proof. unfold Ascii.compare. rewrite !N.compare_lt_iff. apply N.lt_trans. Qed.

Lemma string_compare_refl (s : string) : String.compare s s = Eq.
Proof.
  induction s as [|a s IH]; simpl; [reflexivity|].
  unfold Ascii.compare. now rewrite N.compare_refl.
Qed.

Lemma string_compare_lt_trans (x y z : string) :
  String.compare x y = Lt -> String.compare y z = Lt ->
  String.compare x z = Lt.
Proof.
  revert y z. induction x as [|a x IH]; intros [|b y] [|c z]; simpl;
    try discriminate; try reflexivity.
  destruct (Ascii.compare a b) eqn:Hab; try discriminate;
    destruct (Ascii.compare b c) eqn:Hbc; try discriminate.
  - apply Ascii.compare_eq_iff in Hab, Hbc. subst.
    unfold Ascii.compare. rewrite N.compare_refl. apply IH.
  - apply Ascii.compare_eq_iff in Hab. subst. now rewrite Hbc.
  - apply Ascii.compare_eq_iff in Hbc. subst. now rewrite Hab.
  - now rewrite (ascii_compare_lt_trans _ _ _ Hab Hbc).
Qed.

Lemma string_compare_antisym (x y : string) :
  String.compare y x = CompOpp (String.compare x y).
Proof. apply String.compare_antisym. Qed.

Lemma string_compare_trans (x y z : string) (c : comparison) :
  String.compare x y = c -> String.compare y z = c -> String.compare x z = c.
Proof.
  destruct c; intros Hxy Hyz.
  - apply String.compare_eq_iff in Hxy, Hyz. subst. apply string_compare_refl.
  - eapply string_compare_lt_trans; eassumption.
  - rewrite String.compare_antisym in Hxy, Hyz |- *.
    destruct (String.compare y x) eqn:Hyx; try discriminate.
    destruct (String.compare z y) eqn:Hzy; try discriminate.
    now rewrite (string_compare_lt_trans _ _ _ Hzy Hyx).
Qed.

Lemma string_compare_eq (x y : string) : String.compare x y = Eq <-> x = y.
Proof.
  split; [apply String.compare_eq_iff|intros ->; apply string_compare_refl].
Qed.

Lemma path_compare_eq (p q : list city) : path_compare p q = Eq <-> p = q.
Proof. apply list_compare_refl, string_compare_eq. Qed.

Lemma path_compare_antisym (p q : list city) :
  path_compare q p = CompOpp (path_compare p q).
Proof.
  apply list_compare_antisym;
    [apply string_compare_eq|apply string_compare_antisym].
Qed.

Lemma path_compare_lt_trans (p q r : list city) :
  path_compare p q = Lt -> path_compare q r = Lt -> path_compare p r = Lt.
Proof.
  apply list_compare_trans.
  - apply string_compare_eq.
  - apply string_compare_trans.
  - apply string_compare_antisym.
Qed.

Lemma entry_compare_antisym (x y : entry) :
  entry_compare y x = CompOpp (entry_compare x y).
Proof.
  unfold entry_compare. fold path_compare.
  rewrite <- (Qcompare_antisym (entry_cost x) (entry_cost y)).
  destruct (entry_cost x ?= entry_cost y); simpl; try reflexivity.
  rewrite (string_compare_antisym (entry_node x) (entry_node y)).
  destruct (String.compare (entry_node x) (entry_node y)); simpl;
    try reflexivity.
  apply path_compare_antisym.
Qed.

(** Items that compare equal agree on the city and the path, and on the
    cost as numbers. *)
Lemma entry_compare_Eq (x y : entry) :
  entry_compare x y = Eq ->
  entry_cost x == entry_cost y /\
  entry_node x = entry_node y /\ entry_path x = entry_path y.
Proof.
  unfold entry_compare. fold path_compare.
  destruct (Qcompare_spec (entry_cost x) (entry_cost y)) as [Hc|_|_];
    try discriminate.
  destruct (String.compare (entry_node x) (entry_node y)) eqn:Hn;
    try discriminate.
  intros Hp. apply string_compare_eq in Hn. apply path_compare_eq in Hp.
  now repeat split.
Qed.

Lemma entry_compare_Eq_l (x y z : entry) :
  entry_compare x y = Eq -> entry_compare x z = entry_compare y z.
Proof.
  intros H. apply entry_compare_Eq in H. destruct H as (Hc & Hn & Hp).
  unfold entry_compare. now rewrite Hc, Hn, Hp.
Qed.

Lemma entry_compare_Eq_r (x y z : entry) :
  entry_compare y z = Eq -> entry_compare x y = entry_compare x z.
Proof.
  intros H. apply entry_compare_Eq in H. destruct H as (Hc & Hn & Hp).
  unfold entry_compare. now rewrite Hc, Hn, Hp.
Qed.

Lemma entry_compare_lt_trans (x y z : entry) :
  entry_compare x y = Lt -> entry_compare y z = Lt -> entry_compare x z = Lt.
Proof.
  unfold entry_compare. fold path_compare.
  destruct (Qcompare_spec (entry_cost x) (entry_cost y)) as [Hxy|Hxy|Hxy];
    try discriminate;
    destruct (Qcompare_spec (entry_cost y) (entry_cost z)) as [Hyz|Hyz|Hyz];
    try discriminate; intros H1 H2.
  - assert (Hxz : entry_cost x == entry_cost z) by lra.
    rewrite (proj1 (Qeq_alt _ _) Hxz).
    destruct (String.compare (entry_node x) (entry_node y)) eqn:Hn1;
      try discriminate;
      destruct (String.compare (entry_node y) (entry_node z)) eqn:Hn2;
      try discriminate.
    + apply string_compare_eq in Hn1, Hn2.
      rewrite Hn1, Hn2, string_compare_refl.
      eapply path_compare_lt_trans; eassumption.
    + apply string_compare_eq in Hn1. now rewrite Hn1, Hn2.
    + apply string_compare_eq in Hn2. now rewrite <- Hn2, Hn1.
    + now rewrite (string_compare_lt_trans _ _ _ Hn1 Hn2).
  - assert (Hxz : entry_cost x < entry_cost z) by lra.
    now rewrite (proj1 (Qlt_alt _ _) Hxz).
  - assert (Hxz : entry_cost x < entry_cost z) by lra.
    now rewrite (proj1 (Qlt_alt _ _) Hxz).
  - assert (Hxz : entry_cost x < entry_cost z) by lra.
    now rewrite (proj1 (Qlt_alt _ _) Hxz).
Qed.

(** [y <= x] and [z <= y] give [z <= x], reading [a <= b] as "not [b < a]". *)
Lemma entry_not_ltb_trans (x y z : entry) :
  entry_ltb x y = false -> entry_ltb y z = false -> entry_ltb x z = false.
Proof.
  unfold entry_ltb. intros Hxy Hyz.
  destruct (entry_compare x y) eqn:Cxy; try discriminate.
  - now rewrite (entry_compare_Eq_l _ _ z Cxy).
  - destruct (entry_compare y z) eqn:Cyz; try discriminate.
    + now rewrite <- (entry_compare_Eq_r x _ _ Cyz), Cxy.
    + destruct (entry_compare x z) eqn:Cxz; try reflexivity.
      exfalso.
      (* z < y < x < z *)
      pose proof (entry_compare_antisym x y) as Ayx. rewrite Cxy in Ayx.
      pose proof (entry_compare_antisym y z) as Azy. rewrite Cyz in Azy.
      simpl in Ayx, Azy.
      pose proof (entry_compare_lt_trans _ _ _ Azy Ayx) as Hzx.
      pose proof (entry_compare_antisym x z) as Azx. rewrite Cxz in Azx.
      simpl in Azx. congruence.
Qed.

Lemma entry_ltb_asym (x y : entry) :
  entry_ltb x y = true -> entry_ltb y x = false.
Proof.
  unfold entry_ltb. rewrite (entry_compare_antisym x y).
  destruct (entry_compare x y); simpl; congruence.
Qed.

Lemma entry_ltb_irrefl (x : entry) : entry_ltb x x = false.
Proof.
  unfold entry_ltb. pose proof (entry_compare_antisym x x) as H.
  destruct (entry_compare x x); simpl in H; congruence.
Qed.

(** ** The heap *)

Lemma entry_nltb_cost (x y : entry) :
  entry_ltb x y = false -> entry_cost y <= entry_cost x.
Proof.
  unfold entry_ltb, entry_compare.
  destruct (Qcompare_spec (entry_cost x) (entry_cost y)) as [H|H|H].
  - intros _. rewrite H. apply Qle_refl.
  - discriminate.
  - intros _. now apply Qlt_le_weak.
Qed.

Lemma extract_min_perm (pq : heap) (x m : entry) (rest : heap) :
  extract_min x pq = (m, rest) -> Permutation (x :: pq) (m :: rest).
Proof.
  revert x m rest. induction pq as [|y pq IH]; simpl; intros x m rest.
  - intros [= -> <-]. reflexivity.
  - destruct (extract_min y pq) as [m' others] eqn:Hmin.
    specialize (IH _ _ _ Hmin).
    destruct (entry_ltb m' x).
    + intros [= <- <-]. rewrite IH. apply perm_swap.
    + intros [= <- <-]. reflexivity.
Qed.

Lemma heappop_None (pq : heap) : heappop pq = None -> pq = [].
Proof. destruct pq; [reflexivity|discriminate]. Qed.

(** No item left on the heap is smaller than the one [extract_min] took. *)
Lemma extract_min_smallest (pq : heap) (x m : entry) (rest : heap) :
  extract_min x pq = (m, rest) ->
  Forall (fun y => entry_ltb y m = false) rest.
Proof.
  revert x m rest. induction pq as [|y pq IH]; simpl; intros x m rest.
  - intros [= -> <-]. constructor.
  - destruct (extract_min y pq) as [m' others] eqn:Hmin.
    pose proof (IH _ _ _ Hmin) as Hleast.
    pose proof (extract_min_perm _ _ _ _ Hmin) as Hperm.
    destruct (entry_ltb m' x) eqn:Hlt.
    + intros [= <- <-]. constructor; [now apply entry_ltb_asym|assumption].
    + intros [= <- <-].
      assert (Hall : Forall (fun z => entry_ltb z x = false) (m' :: others)).
      { constructor; [assumption|].
        eapply Forall_impl; [|exact Hleast].
        intros z Hz. simpl in Hz. eapply entry_not_ltb_trans; eassumption. }
      rewrite Forall_forall in *. intros z Hz. apply Hall.
      eapply Permutation_in; [exact Hperm|exact Hz].
Qed.

Lemma heappop_pops (pq : heap) (x : entry) (rest : heap) :
  heappop pq = Some (x, rest) -> pops pq x rest.
Proof.
  destruct pq as [|y pq]; [discriminate|]. simpl. intros [= H].
  split; [now apply extract_min_perm|now apply (extract_min_smallest pq y)].
Qed.

Lemma pops_not_smaller (pq : heap) (x : entry) (rest : heap) (y : entry) :
  pops pq x rest -> In y pq -> entry_ltb y x = false.
Proof.
  intros [Hperm Hsmall] Hy. apply (Permutation_in _ Hperm) in Hy.
  destruct Hy as [<-|Hy]; [apply entry_ltb_irrefl|].
  rewrite Forall_forall in Hsmall. now apply Hsmall.
Qed.

Lemma pops_In (pq : heap) (x : entry) (rest : heap) :
  pops pq x rest -> In x pq.
Proof.
  intros [Hperm _]. eapply Permutation_in; [symmetry; exact Hperm|now left].
Qed.

(** [heappop] hands out an item of least cost and keeps all the others. *)
Lemma heappop_Some (pq : heap) (m : entry) (rest : heap) :
  heappop pq = Some (m, rest) ->
  Permutation pq (m :: rest) /\
  forall y, In y pq -> entry_cost m <= entry_cost y.
Proof.
  intros Hpop. apply heappop_pops in Hpop.
  split; [apply Hpop|].
  intros y Hy. apply entry_nltb_cost.
  eapply pops_not_smaller; eassumption.
Qed.

(** ** Pushing the neighbours *)

Lemma push_neighbors_In (cost : Q) (path visited : list city)
    (items : adjacency) (pq : heap) (x : entry) :
  In x (push_neighbors cost path visited items pq) <->
  In x pq \/
  exists v w, In (v, w) items /\ ~ In v visited /\ x = (cost + w, v, path).
Proof.
  revert pq. induction items as [|[v w] items IH]; simpl; intros pq.
  - split; [now left|]. intros [H|(v & w & [] & _)]. assumption.
  - rewrite IH. destruct (in_set v visited) eqn:Hv.
    + apply in_set_In in Hv. split.
      * intros [H|(v' & w' & Hin & Hnv & ->)]; [now left|].
        right. exists v', w'. auto.
      * intros [H|(v' & w' & [Heq|Hin] & Hnv & ->)]; [now left| |].
        -- injection Heq as -> ->. contradiction.
        -- right. exists v', w'. auto.
    + apply in_set_not_In in Hv. unfold heappush. simpl. split.
      * intros [[<-|H]|(v' & w' & Hin & Hnv & ->)].
        -- right. exists v, w. auto.
        -- now left.
        -- right. exists v', w'. auto.
      * intros [H|(v' & w' & [Heq|Hin] & Hnv & ->)].
        -- left. now right.
        -- injection Heq as -> ->. left. now left.
        -- right. exists v', w'. auto.
Qed.

Lemma push_neighbors_length (cost : Q) (path visited : list city)
    (items : adjacency) (pq : heap) :
  (length (push_neighbors cost path visited items pq)
   <= length pq + length items)%nat.
Proof.
  revert pq. induction items as [|[v w] items IH]; simpl; intros pq; [lia|].
  etransitivity; [apply IH|].
  destruct (in_set v visited); unfold heappush; simpl; lia.
Qed.

(** ** The invariant of the search loop *)

Section DijkstraInvariant.

Variable g : graph.
Variables start end_ : city.
Hypothesis Hwf : wf_graph g.

(** Every route to a city that is not visited yet crosses the frontier:
    some item waits at an unvisited city, at no more than the route's
    length. *)
Lemma frontier (pq : heap) (visited : list city) (q : list city) :
  dijkstra_inv g start end_ pq visited ->
  forall t, is_route g start t q -> ~ In t visited ->
  exists x, In x pq /\ ~ In (entry_node x) visited /\
    (nonneg_distances g -> entry_cost x <= route_length g q).
Proof.
  intros Hinv. induction q as [|z q IH] using rev_ind; intros t Hroute Ht.
  - destruct Hroute as [Hhd _]. discriminate.
  - destruct (is_route_inv _ _ _ _ Hroute)
      as [[Heq ->]|(q' & u & w & Heq & Hq' & Hw & Hlen)].
    + destruct (inv_start _ _ _ _ _ Hinv) as [Hs|Hs]; [contradiction|].
      exists (0, start, []). split; [assumption|]. split; [assumption|].
      intros _. rewrite Heq. simpl. apply Qle_refl.
    + apply app_inj_tail in Heq. destruct Heq as [-> ->].
      destruct (in_dec string_dec u visited) as [Hu|Hu].
      * destruct (inv_settled _ _ _ _ _ Hinv u Hu) as (d & Hd & Hnext).
        destruct (Hnext t w Hw Ht) as (x & Hx & Hnode & Hcost).
        exists x. split; [assumption|]. split; [now rewrite Hnode|].
        intros Hnn. rewrite Hlen. specialize (Hd Hnn _ Hq'). lra.
      * destruct (IH u Hq' Hu) as (x & Hx & Hnode & Hcost).
        exists x. split; [assumption|]. split; [assumption|].
        intros Hnn. rewrite Hlen. specialize (Hcost Hnn).
        specialize (Hnn _ _ _ Hw). lra.
Qed.

(** The popped item of an unvisited city costs no more than any route
    to that city. *)
Lemma popped_is_least (pq rest : heap) (visited : list city) (x : entry) :
  dijkstra_inv g start end_ pq visited ->
  heappop pq = Some (x, rest) ->
  ~ In (entry_node x) visited ->
  nonneg_distances g ->
  forall q, is_route g start (entry_node x) q ->
    entry_cost x <= route_length g q.
Proof.
  intros Hinv Hpop Hx Hnn q Hq.
  destruct (frontier _ _ _ Hinv _ Hq Hx) as (y & Hy & _ & Hcost).
  destruct (heappop_Some _ _ _ Hpop) as [_ Hleast].
  specialize (Hleast y Hy). specialize (Hcost Hnn).
  eapply Qle_trans; eassumption.
Qed.

Lemma popped_ok (pq rest : heap) (visited : list city) (x : entry) :
  dijkstra_inv g start end_ pq visited ->
  heappop pq = Some (x, rest) ->
  entry_ok g start visited x.
Proof.
  intros Hinv Hpop.
  destruct (heappop_Some _ _ _ Hpop) as [Hperm _].
  pose proof (inv_entries _ _ _ _ _ Hinv) as Hall.
  rewrite Forall_forall in Hall. apply Hall.
  eapply Permutation_in; [symmetry; exact Hperm|now left].
Qed.

Lemma rest_In (pq rest : heap) (x y : entry) :
  heappop pq = Some (x, rest) -> In y rest -> In y pq.
Proof.
  intros Hpop Hy. destruct (heappop_Some _ _ _ Hpop) as [Hperm _].
  eapply Permutation_in; [symmetry; exact Hperm|now right].
Qed.

Lemma In_rest (pq rest : heap) (x y : entry) :
  heappop pq = Some (x, rest) -> In y pq ->
  entry_node y <> entry_node x -> In y rest.
Proof.
  intros Hpop Hy Hne. destruct (heappop_Some _ _ _ Hpop) as [Hperm _].
  apply (Permutation_in _ Hperm) in Hy.
  destruct Hy as [<-|Hy]; [congruence|assumption].
Qed.

(** [continue]: the popped city was visited already. *)
Lemma inv_skip (pq rest : heap) (visited : list city) (x : entry) :
  dijkstra_inv g start end_ pq visited ->
  heappop pq = Some (x, rest) ->
  In (entry_node x) visited ->
  dijkstra_inv g start end_ rest visited.
Proof.
  intros Hinv Hpop Hx. split.
  - pose proof (inv_entries _ _ _ _ _ Hinv) as Hall.
    rewrite Forall_forall in *. intros y Hy. apply Hall.
    eapply rest_In; eassumption.
  - intros u Hu.
    destruct (inv_settled _ _ _ _ _ Hinv u Hu) as (d & Hd & Hnext).
    exists d. split; [assumption|].
    intros v w Hw Hv. destruct (Hnext v w Hw Hv) as (y & Hy & Hnode & Hc).
    exists y. split; [|now split].
    eapply In_rest; [eassumption|assumption|].
    intros Heq. apply Hv. rewrite <- Hnode, Heq. assumption.
  - destruct (inv_start _ _ _ _ _ Hinv) as [Hs|Hs]; [now left|].
    destruct (in_dec string_dec start visited) as [Hv|Hv]; [now left|].
    right. eapply In_rest; [eassumption|assumption|].
    simpl. intros Heq. apply Hv. unfold entry_node at 1 in Heq. simpl in Heq.
    now rewrite Heq.
  - apply (inv_end _ _ _ _ _ Hinv).
Qed.

Lemma entry_ok_mono (visited : list city) (n : city) (x : entry) :
  entry_ok g start visited x -> entry_ok g start (n :: visited) x.
Proof.
  intros (H1 & H2 & H3 & H4 & H5). repeat (split; [assumption|]).
  split; [|assumption]. now apply incl_tl.
Qed.

(** The popped city is new and is not the destination: it is marked
    visited and its unvisited neighbours are pushed. *)
Lemma inv_expand (pq rest : heap) (visited : list city)
    (cost : Q) (node : city) (path : list city) (items : adjacency) :
  dijkstra_inv g start end_ pq visited ->
  heappop pq = Some ((cost, node, path), rest) ->
  ~ In node visited ->
  node <> end_ ->
  Dict.get node g = Some items ->
  dijkstra_inv g start end_
    (push_neighbors cost (path ++ [node]) (node :: visited) items rest)
    (node :: visited).
Proof.
  intros Hinv Hpop Hnode Hend Hitems.
  pose proof (popped_ok _ _ _ _ Hinv Hpop) as Hok.
  destruct Hok as (Hroute & Hcost & Hnd & Hincl & _).
  unfold entry_node, entry_cost, entry_path in Hroute, Hcost, Hnd, Hincl.
  simpl in Hroute, Hcost, Hnd, Hincl.
  destruct (Hwf _ _ Hitems) as [Hkeys Hclosed].
  split.
  - rewrite Forall_forall. intros y Hy.
    apply push_neighbors_In in Hy.
    destruct Hy as [Hy|(v & w & Hvw & Hv & ->)].
    + apply entry_ok_mono.
      pose proof (inv_entries _ _ _ _ _ Hinv) as Hall.
      rewrite Forall_forall in Hall. apply Hall.
      eapply rest_In; eassumption.
    + assert (Hedge : edge_distance g node v = Some w).
      { unfold edge_distance. rewrite Hitems. now apply In_get. }
      unfold entry_ok, entry_node, entry_cost, entry_path. simpl.
      split; [|split; [|split; [|split]]].
      * apply is_route_snoc; [assumption|].
        unfold is_edge. simpl. congruence.
      * rewrite route_length_snoc, (leg_distance_edge _ _ _ _ Hedge).
        now rewrite <- Hcost.
      * apply NoDup_app; [assumption|repeat constructor; intros []|].
        intros a Ha [<-|[]]. apply Hnode. now apply Hincl.
      * intros a Ha. apply in_app_or in Ha.
        destruct Ha as [Ha|[<-|[]]]; [right; now apply Hincl|now left].
      * right. apply Hclosed. unfold Dict.keys.
        change v with (fst (v, w)). now apply in_map.
  - intros u Hu.
    destruct (string_dec u node) as [->|Hne].
    + exists cost. split.
      * intros Hnn q Hq.
        apply (popped_is_least _ _ _ _ Hinv Hpop Hnode Hnn q Hq).
      * intros v w Hw Hv. exists (cost + w, v, path ++ [node]).
        split; [|split; [reflexivity|apply Qle_refl]].
        apply push_neighbors_In. right. exists v, w.
        split; [|split; [assumption|reflexivity]].
        unfold edge_distance in Hw. rewrite Hitems in Hw.
        now apply get_In.
    + destruct Hu as [Hu|Hu]; [congruence|].
      destruct (inv_settled _ _ _ _ _ Hinv u Hu) as (d & Hd & Hnext).
      exists d. split; [assumption|].
      intros v w Hw Hv.
      destruct (Hnext v w Hw (fun H => Hv (or_intror H)))
        as (y & Hy & Hy_node & Hc).
      exists y. split; [|now split].
      apply push_neighbors_In. left.
      eapply In_rest; [eassumption|assumption|].
      unfold entry_node at 2. simpl. intros Heq. apply Hv. left.
      now rewrite <- Hy_node, Heq.
  - destruct (string_dec node start) as [->|Hne]; [left; now left|].
    destruct (inv_start _ _ _ _ _ Hinv) as [Hs|Hs]; [left; now right|].
    right. apply push_neighbors_In. left.
    eapply In_rest; [eassumption|assumption|].
    unfold entry_node. simpl. congruence.
  - intros [Heq|Hin]; [contradiction|].
    now apply (inv_end _ _ _ _ _ Hinv).
Qed.

End DijkstraInvariant.

(** ** Termination measure *)

Lemma in_set_cons (k n : city) (visited : list city) :
  in_set k (n :: visited) = (String.eqb k n || in_set k visited)%bool.
Proof. reflexivity. Qed.

Lemma pending_degree_cons (k : city) (adj : adjacency) (g : graph)
    (visited : list city) :
  pending_degree ((k, adj) :: g) visited =
  if in_set k visited then pending_degree g visited
  else (length adj + pending_degree g visited)%nat.
Proof. reflexivity. Qed.

Lemma pending_degree_mono (g : graph) (n : city) (visited : list city) :
  (pending_degree g (n :: visited) <= pending_degree g visited)%nat.
Proof.
  induction g as [|[k adj] g IH]; [apply Nat.le_refl|].
  rewrite !pending_degree_cons, in_set_cons.
  destruct (String.eqb k n); destruct (in_set k visited); simpl; lia.
Qed.

(** Visiting a city takes its whole adjacency out of the pending work. *)
Lemma pending_degree_visit (g : graph) (n : city) (visited : list city)
    (items : adjacency) :
  Dict.get n g = Some items -> ~ In n visited ->
  (pending_degree g (n :: visited) + length items
   <= pending_degree g visited)%nat.
Proof.
  intros Hget Hn. apply in_set_not_In in Hn.
  induction g as [|[k adj] g IH]; [discriminate|].
  rewrite !pending_degree_cons, in_set_cons.
  simpl in Hget.
  destruct (String.eqb_spec n k) as [<-|Hne].
  - injection Hget as ->. rewrite String.eqb_refl, Hn. simpl.
    pose proof (pending_degree_mono g n visited). lia.
  - specialize (IH Hget).
    destruct (String.eqb_spec k n) as [Heq|_]; [congruence|]. simpl.
    destruct (in_set k visited); lia.
Qed.

Lemma pending_degree_nil (g : graph) : pending_degree g [] = total_degree g.
Proof. induction g as [|[k adj] g IH]; simpl; congruence. Qed.

(** ** The loop is correct and terminates within its bound *)

Section DijkstraLoop.

Variable g : graph.
Variables start end_ : city.
Hypothesis Hwf : wf_graph g.
Hypothesis Hstart : Dict.get start g <> None \/ start = end_.

Lemma dijkstra_loop_correct (fuel : nat) :
  forall pq visited,
    dijkstra_inv g start end_ pq visited ->
    (length pq + pending_degree g visited <= fuel)%nat ->
    exists r, dijkstra_loop fuel g end_ pq visited = Ret r /\
              dijkstra_post g start end_ r.
Proof.
  induction fuel as [|fuel IH]; intros pq visited Hinv Hfuel.
  - (* no iteration left: the frontier is empty *)
    destruct pq as [|x pq]; [|simpl in Hfuel; lia].
    exists (Infinity, []). split; [reflexivity|].
    split; [reflexivity|]. intros [q Hq].
    destruct (frontier _ _ _ _ _ _ Hinv _ Hq (inv_end _ _ _ _ _ Hinv))
      as (x & [] & _).
  - simpl. destruct (heappop pq) as [[[[cost node] path] rest]|] eqn:Hpop.
    + pose proof (heappop_Some _ _ _ Hpop) as [Hperm _].
      apply Permutation_length in Hperm. simpl in Hperm.
      destruct (in_set node visited) eqn:Hvis.
      * (* continue *)
        apply in_set_In in Hvis. apply IH; [|lia].
        eapply inv_skip; eassumption.
      * apply in_set_not_In in Hvis.
        pose proof (popped_ok _ _ _ _ _ _ _ Hinv Hpop) as Hok.
        destruct Hok as (Hroute & Hcost & Hnd & Hincl & Hnode).
        unfold entry_node, entry_cost, entry_path
          in Hroute, Hcost, Hnd, Hincl, Hnode.
        simpl in Hroute, Hcost, Hnd, Hincl, Hnode.
        destruct (String.eqb_spec node end_) as [->|Hne].
        -- (* the destination is reached *)
           exists (Finite cost, path ++ [end_]). split; [reflexivity|].
           split; [assumption|]. split; [assumption|]. split.
           ++ apply NoDup_app; [assumption|repeat constructor; intros []|].
              intros a Ha [<-|[]]. apply Hvis. now apply Hincl.
           ++ intros Hnn q Hq.
              apply (popped_is_least _ _ _ _ _ _ _ Hinv Hpop Hvis Hnn q Hq).
        -- (* expansion *)
           assert (Hin : Dict.get node g <> None).
           { destruct Hnode as [->|Hnode]; [|assumption].
             destruct Hroute as [Hhd _]. simpl in Hhd.
             injection Hhd as ->. destruct Hstart; congruence. }
           destruct (Dict.get node g) as [items|] eqn:Hitems; [|congruence].
           apply IH.
           ++ eapply inv_expand; eassumption.
           ++ pose proof (push_neighbors_length cost (path ++ [node])
                            (node :: visited) items rest).
              pose proof (pending_degree_visit _ _ _ _ Hitems Hvis).
              lia.
    + (* the frontier is empty: no route *)
      apply heappop_None in Hpop. subst pq.
      exists (Infinity, []). split; [reflexivity|].
      split; [reflexivity|]. intros [q Hq].
      destruct (frontier _ _ _ _ _ _ Hinv _ Hq (inv_end _ _ _ _ _ Hinv))
        as (x & [] & _).
Qed.

Lemma dijkstra_inv_init :
  dijkstra_inv g start end_ [(0, start, [])] [].
Proof.
  split.
  - constructor; [|constructor].
    unfold entry_ok, entry_node, entry_cost, entry_path. simpl.
    split; [apply is_route_single|].
    split; [reflexivity|]. split; [constructor|].
    split; [intros a []|now left].
  - intros u [].
  - right. now left.
  - intros [].
Qed.

End DijkstraLoop.

(** ** The search as a whole *)

Lemma connected_start (g : graph) (start end_ : city) :
  connected g start end_ -> is_city g start \/ start = end_.
Proof.
  intros (q & Hhd & Hlast & Hlegs).
  destruct q as [|a [|b q]]; simpl in *; [discriminate| |].
  - right. congruence.
  - left. injection Hhd as ->.
    inversion Hlegs as [|? ? Hedge _]; subst.
    unfold is_edge, edge_distance in Hedge. simpl in Hedge.
    unfold is_city. destruct (Dict.get start g); congruence.
Qed.

(** [dijkstra] never runs out of iterations, never raises when [start] is
    a city of the graph (or is the destination), and its result meets
    [dijkstra_post]. *)
Lemma dijkstra_correct (g : graph) (start end_ : city) :
  wf_graph g -> is_city g start \/ start = end_ ->
  exists r, dijkstra g start end_ = Ret r /\ dijkstra_post g start end_ r.
Proof.
  intros Hwf Hstart. unfold dijkstra.
  apply (dijkstra_loop_correct g start end_ Hwf Hstart).
  - apply dijkstra_inv_init.
  - rewrite pending_degree_nil. simpl. lia.
Qed.

Lemma dijkstra_connected (g : graph) (start end_ : city) :
  wf_graph g -> connected g start end_ ->
  exists d path,
    dijkstra g start end_ = Ret (Finite d, path) /\
    dijkstra_post g start end_ (Finite d, path).
Proof.
  intros Hwf Hconn.
  destruct (dijkstra_correct g start end_ Hwf (connected_start _ _ _ Hconn))
    as ([[d|] path] & Heq & Hpost).
  - exists d, path. now split.
  - destruct Hpost as [_ Hno]. contradiction.
Qed.

(** The shape of whatever the loop returns: the sentinel, or a cost with
    a path that ends at the destination. *)
Lemma dijkstra_loop_shape (fuel : nat) (g : graph) (end_ : city) :
  forall pq visited r,
    dijkstra_loop fuel g end_ pq visited = Ret r ->
    r = (Infinity, []) \/
    exists cost p, r = (Finite cost, p ++ [end_]).
Proof.
  induction fuel as [|fuel IH]; intros pq visited r; simpl;
    destruct (heappop pq) as [[[[cost node] path] rest]|];
    try discriminate; try (intros [= <-]; now left).
  destruct (in_set node visited); [apply IH|].
  destruct (String.eqb_spec node end_) as [->|Hne].
  - intros [= <-]. right. now exists cost, path.
  - destruct (Dict.get node g); [apply IH|discriminate].
Qed.

Lemma dijkstra_shape (g : graph) (start end_ : city)
    (r : distance * list city) :
  dijkstra g start end_ = Ret r ->
  r = (Infinity, []) \/ exists cost p, r = (Finite cost, p ++ [end_]).
Proof. apply dijkstra_loop_shape. Qed.

(** A search that ends on the sentinel proves that there is no route. *)
Lemma dijkstra_infinity_no_route (g : graph) (start end_ : city)
    (path : list city) :
  wf_graph g -> is_city g start ->
  dijkstra g start end_ = Ret (Infinity, path) ->
  ~ connected g start end_.
Proof.
  intros Hwf Hstart Heq.
  destruct (dijkstra_correct g start end_ Hwf (or_introl Hstart))
    as (r & Heq' & Hpost).
  rewrite Heq in Heq'. injection Heq' as <-. apply Hpost.
Qed.

(** ** The battery simulation *)

Section Simulation.

Variable g : graph.
Variable prices : Dict.t Q.
Variable battery_capacity : Q.

(** The body of the [for] loop, once. *)
Lemma drive_unfold (here next : city) (rest : list city)
    (rem cost : Q) (plan : list stop) :
  drive g prices battery_capacity (here :: next :: rest) (rem, cost, plan) =
  (adj <- subscript g here ;;
   dist <- subscript adj next ;;
   st' <-
     (match rem ?= dist with
      | Lt =>
          price <- subscript prices here ;;
          Ret (battery_capacity,
               cost + (battery_capacity - rem) * price,
               plan ++ [mk_stop here (battery_capacity - rem) price])
      | _ => Ret (rem, cost, plan)
      end) ;;
   let '(rem', cost', plan') := st' in
   drive g prices battery_capacity (next :: rest)
     (rem' - dist, cost', plan')).
Proof. reflexivity. Qed.

(** One leg with a recharge before it. *)
Lemma drive_charge (here next : city) (rest : list city)
    (rem cost : Q) (plan : list stop) (dist price : Q) :
  edge_distance g here next = Some dist ->
  rem < dist ->
  Dict.get here prices = Some price ->
  drive g prices battery_capacity (here :: next :: rest) (rem, cost, plan) =
  drive g prices battery_capacity (next :: rest)
    (battery_capacity - dist,
     cost + (battery_capacity - rem) * price,
     plan ++ [mk_stop here (battery_capacity - rem) price]).
Proof.
  intros Hedge Hlt Hprice. unfold edge_distance in Hedge.
  destruct (Dict.get here g) as [adj|] eqn:Hadj; [|discriminate].
  pose proof (proj1 (Qlt_alt rem dist) Hlt) as Hcmp.
  rewrite drive_unfold. unfold subscript, bind.
  rewrite Hadj, Hedge, Hcmp, Hprice. reflexivity.
Qed.

(** One leg on the charge that is left. *)
Lemma drive_keep (here next : city) (rest : list city)
    (rem cost : Q) (plan : list stop) (dist : Q) :
  edge_distance g here next = Some dist ->
  dist <= rem ->
  drive g prices battery_capacity (here :: next :: rest) (rem, cost, plan) =
  drive g prices battery_capacity (next :: rest) (rem - dist, cost, plan).
Proof.
  intros Hedge Hle. unfold edge_distance in Hedge.
  destruct (Dict.get here g) as [adj|] eqn:Hadj; [|discriminate].
  rewrite drive_unfold. unfold subscript, bind.
  rewrite Hadj, Hedge.
  destruct (Qcompare_spec rem dist) as [Heq|Hlt|Hgt];
    [reflexivity| |reflexivity].
  exfalso. apply (Qlt_not_le _ _ Hlt Hle).
Qed.

(** A leg that does not raise is one of the two cases above. *)
Lemma drive_leg (here next : city) (rest : list city)
    (rem cost : Q) (plan : list stop) (st' : sim_state) :
  drive g prices battery_capacity (here :: next :: rest) (rem, cost, plan)
    = Ret st' ->
  exists dist,
    edge_distance g here next = Some dist /\
    ((rem < dist /\ exists price, Dict.get here prices = Some price) \/
     dist <= rem).
Proof.
  rewrite drive_unfold. unfold subscript, edge_distance, bind.
  destruct (Dict.get here g) as [adj|]; [|discriminate].
  destruct (Dict.get next adj) as [dist|]; [|discriminate].
  intros H. exists dist. split; [reflexivity|].
  destruct (Qcompare_spec rem dist) as [Heq|Hlt|Hgt].
  - right. rewrite Heq. apply Qle_refl.
  - left. split; [assumption|].
    destruct (Dict.get here prices) as [price|]; [|discriminate].
    now exists price.
  - right. now apply Qlt_le_weak.
Qed.

Lemma path_ind2 (P : list city -> Prop) :
  P [] -> (forall a, P [a]) ->
  (forall a b rest, P (b :: rest) -> P (a :: b :: rest)) ->
  forall path, P path.
Proof.
  intros Hnil Hone Hstep path.
  induction path as [|a [|b rest] IH]; auto.
Qed.

(** The loop only appends stops; each goes into the total at the price
    listed for its city, and the stops follow the cities the path
    leaves, in order. *)
Lemma drive_plan (path : list city) :
  forall rem cost plan rem' cost' plan',
    drive g prices battery_capacity path (rem, cost, plan)
      = Ret (rem', cost', plan') ->
    exists added,
      plan' = plan ++ added /\
      cost' = fold_left (fun acc s => acc + stop_cost prices s) added cost /\
      subseq (map stop_city added) (removelast path) /\
      Forall (priced prices) added.
Proof.
  induction path as [|a|a b rest IH] using path_ind2;
    intros rem cost plan rem' cost' plan' Hrun.
  - injection Hrun as <- <- <-. exists []. rewrite app_nil_r.
    repeat split; constructor.
  - injection Hrun as <- <- <-. exists []. rewrite app_nil_r.
    repeat split; constructor.
  - destruct (drive_leg _ _ _ _ _ _ _ Hrun)
      as (dist & Hedge & [[Hlt [price Hprice]]|Hle]).
    + rewrite (drive_charge _ _ _ _ _ _ _ _ Hedge Hlt Hprice) in Hrun.
      destruct (IH _ _ _ _ _ _ Hrun) as (added & -> & -> & Hsub & Hpr).
      exists (mk_stop a (battery_capacity - rem) price :: added).
      split; [now rewrite <- app_assoc|]. split; [|split].
      * cbn [fold_left].
        replace (stop_cost prices
                   (mk_stop a (battery_capacity - rem) price))
          with ((battery_capacity - rem) * price); [reflexivity|].
        unfold stop_cost. cbn [stop_city stop_energy].
        now rewrite Hprice.
      * change (removelast (a :: b :: rest))
          with (a :: removelast (b :: rest)).
        simpl map. now apply subseq_take.
      * constructor; [exact Hprice|assumption].
    + rewrite (drive_keep _ _ _ _ _ _ _ Hedge Hle) in Hrun.
      destruct (IH _ _ _ _ _ _ Hrun) as (added & -> & -> & Hsub & Hpr).
      exists added. repeat split; try assumption.
      change (removelast (a :: b :: rest))
        with (a :: removelast (b :: rest)).
      now apply subseq_skip.
Qed.

(** The battery never holds more than its capacity, so a recharge on
    the way never adds a negative amount. *)
Lemma drive_energy_nonneg (path : list city) :
  nonneg_distances g ->
  forall rem cost plan rem' cost' plan',
    drive g prices battery_capacity path (rem, cost, plan)
      = Ret (rem', cost', plan') ->
    rem <= battery_capacity ->
    Forall (fun s => 0 <= stop_energy s) plan ->
    rem' <= battery_capacity /\
    Forall (fun s => 0 <= stop_energy s) plan'.
Proof.
  intros Hnn.
  induction path as [|a|a b rest IH] using path_ind2;
    intros rem cost plan rem' cost' plan' Hrun Hrem Hplan.
  - injection Hrun as <- <- <-. now split.
  - injection Hrun as <- <- <-. now split.
  - destruct (drive_leg _ _ _ _ _ _ _ Hrun)
      as (dist & Hedge & [[Hlt [price Hprice]]|Hle]);
      pose proof (Hnn _ _ _ Hedge) as Hdist.
    + rewrite (drive_charge _ _ _ _ _ _ _ _ Hedge Hlt Hprice) in Hrun.
      apply (IH _ _ _ _ _ _ Hrun); [lra|].
      apply Forall_app. split; [assumption|].
      constructor; [simpl; lra|constructor].
    + rewrite (drive_keep _ _ _ _ _ _ _ Hedge Hle) in Hrun.
      apply (IH _ _ _ _ _ _ Hrun); [lra|assumption].
Qed.

(** When no leg is longer than the capacity the battery never runs
    negative, and every recharge adds a positive amount within the
    capacity. *)
Lemma drive_energy_bounded (path : list city) :
  Forall (fun leg => leg_distance g leg <= battery_capacity) (legs path) ->
  forall rem cost plan rem' cost' plan',
    drive g prices battery_capacity path (rem, cost, plan)
      = Ret (rem', cost', plan') ->
    0 <= rem ->
    Forall (fun s => 0 < stop_energy s <= battery_capacity) plan ->
    0 <= rem' /\
    Forall (fun s => 0 < stop_energy s <= battery_capacity) plan'.
Proof.
  induction path as [|a|a b rest IH] using path_ind2;
    intros Hlegs rem cost plan rem' cost' plan' Hrun Hrem Hplan.
  - injection Hrun as <- <- <-. now split.
  - injection Hrun as <- <- <-. now split.
  - change (legs (a :: b :: rest)) with ((a, b) :: legs (b :: rest))
      in Hlegs.
    inversion Hlegs as [|? ? Hab Hrest]; subst.
    destruct (drive_leg _ _ _ _ _ _ _ Hrun)
      as (dist & Hedge & [[Hlt [price Hprice]]|Hle]);
      rewrite (leg_distance_edge _ _ _ _ Hedge) in Hab.
    + rewrite (drive_charge _ _ _ _ _ _ _ _ Hedge Hlt Hprice) in Hrun.
      apply (IH Hrest _ _ _ _ _ _ Hrun); [lra|].
      apply Forall_app. split; [assumption|].
      constructor; [simpl; lra|constructor].
    + rewrite (drive_keep _ _ _ _ _ _ _ Hedge Hle) in Hrun.
      apply (IH Hrest _ _ _ _ _ _ Hrun); [lra|assumption].
Qed.

(** With a price for every city it leaves, the loop runs to its end
    along any route. *)
Lemma drive_returns (path : list city) :
  Forall (is_edge g) (legs path) ->
  (forall n, In n (removelast path) -> Dict.get n prices <> None) ->
  forall st, exists st',
    drive g prices battery_capacity path st = Ret st'.
Proof.
  induction path as [|a|a b rest IH] using path_ind2;
    intros Hlegs Hprices [[rem cost] plan].
  - now eexists.
  - now eexists.
  - change (legs (a :: b :: rest)) with ((a, b) :: legs (b :: rest))
      in Hlegs.
    change (removelast (a :: b :: rest))
      with (a :: removelast (b :: rest)) in Hprices.
    inversion Hlegs as [|? ? Hab Hrest]; subst.
    unfold is_edge in Hab. simpl in Hab.
    destruct (edge_distance g a b) as [dist|] eqn:Hedge; [|congruence].
    assert (IH' := IH Hrest (fun n Hn => Hprices n (or_intror Hn))).
    destruct (Qlt_le_dec rem dist) as [Hlt|Hle].
    + destruct (Dict.get a prices) as [price|] eqn:Hprice.
      * rewrite (drive_charge _ _ _ _ _ _ _ _ Hedge Hlt Hprice).
        apply IH'.
      * exfalso. apply (Hprices a); [now left|assumption].
    + rewrite (drive_keep _ _ _ _ _ _ _ Hedge Hle). apply IH'.
Qed.

End Simulation.

(** ** Lengths of routes *)

Lemma fold_left_plus_shift {A : Type} (f : A -> Q) (l : list A) (x : Q) :
  fold_left (fun acc a => acc + f a) l x ==
  x + fold_left (fun acc a => acc + f a) l 0.
Proof.
  revert x. induction l as [|a l IH]; intros x; simpl; [ring|].
  rewrite (IH (x + f a)), (IH (0 + f a)). ring.
Qed.

Lemma route_length_cons (g : graph) (a b : city) (rest : list city) :
  route_length g (a :: b :: rest) ==
  leg_distance g (a, b) + route_length g (b :: rest).
Proof.
  unfold route_length.
  change (legs (a :: b :: rest)) with ((a, b) :: legs (b :: rest)).
  cbn [fold_left]. rewrite fold_left_plus_shift. ring.
Qed.

Lemma route_length_nonneg (g : graph) (path : list city) :
  nonneg_distances g -> Forall (is_edge g) (legs path) ->
  0 <= route_length g path.
Proof.
  intros Hnn.
  induction path as [|a|a b rest IH] using path_ind2; intros Hlegs.
  - apply Qle_refl.
  - apply Qle_refl.
  - change (legs (a :: b :: rest)) with ((a, b) :: legs (b :: rest)) in Hlegs.
    inversion Hlegs as [|? ? Hab Hrest]; subst.
    unfold is_edge in Hab. simpl in Hab.
    destruct (edge_distance g a b) as [dist|] eqn:Hedge; [|congruence].
    rewrite route_length_cons, (leg_distance_edge _ _ _ _ Hedge).
    specialize (IH Hrest). specialize (Hnn _ _ _ Hedge). lra.
Qed.

(** Every city on a route that starts in the graph is a city of the graph. *)
Lemma route_cities (g : graph) (path : list city) :
  wf_graph g ->
  forall a, is_city g a -> Forall (is_edge g) (legs (a :: path)) ->
  Forall (is_city g) (a :: path).
Proof.
  intros Hwf. induction path as [|b rest IH]; intros a Ha Hlegs.
  - repeat constructor. assumption.
  - change (legs (a :: b :: rest)) with ((a, b) :: legs (b :: rest)) in Hlegs.
    inversion Hlegs as [|? ? Hab Hrest]; subst.
    constructor; [assumption|]. apply IH; [|assumption].
    unfold is_edge, edge_distance in Hab. simpl in Hab.
    destruct (Dict.get a g) as [adj|] eqn:Hadj; [|congruence].
    destruct (Dict.get b adj) as [d|] eqn:Hd; [|congruence].
    destruct (Hwf _ _ Hadj) as [_ Hclosed]. apply Hclosed.
    eapply get_In_keys; eassumption.
Qed.

(** ** Subsequences *)

Lemma subseq_nil_l {A : Type} (l : list A) : subseq [] l.
Proof. induction l; constructor; assumption. Qed.

Lemma subseq_app {A : Type} (xs ys xs' ys' : list A) :
  subseq xs ys -> subseq xs' ys' -> subseq (xs ++ xs') (ys ++ ys').
Proof.
  intros H H'. induction H; simpl; try constructor; assumption.
Qed.

Lemma subseq_In {A : Type} (xs ys : list A) :
  subseq xs ys -> forall x, In x xs -> In x ys.
Proof.
  intros H. induction H; intros z Hz.
  - destruct Hz.
  - right. now apply IHsubseq.
  - destruct Hz as [<-|Hz]; [now left|right; now apply IHsubseq].
Qed.

(** ** Enough charge for the whole route *)

Lemma drive_enough (g : graph) (prices : Dict.t Q) (battery_capacity : Q)
    (path : list city) :
  nonneg_distances g ->
  Forall (is_edge g) (legs path) ->
  forall rem cost plan,
    route_length g path <= rem ->
    exists rem',
      drive g prices battery_capacity path (rem, cost, plan)
        = Ret (rem', cost, plan) /\
      rem' == rem - route_length g path.
Proof.
  intros Hnn.
  induction path as [|a|a b rest IH] using path_ind2;
    intros Hlegs rem cost plan Hrem.
  - exists rem. split; [reflexivity|]. unfold route_length. simpl. ring.
  - exists rem. split; [reflexivity|]. unfold route_length. simpl. ring.
  - change (legs (a :: b :: rest)) with ((a, b) :: legs (b :: rest)) in Hlegs.
    inversion Hlegs as [|? ? Hab Hrest]; subst.
    unfold is_edge in Hab. simpl in Hab.
    destruct (edge_distance g a b) as [dist|] eqn:Hedge; [|congruence].
    pose proof (route_length_cons g a b rest) as Hcons.
    rewrite (leg_distance_edge _ _ _ _ Hedge) in Hcons.
    pose proof (route_length_nonneg g (b :: rest) Hnn Hrest) as Hpos.
    pose proof (Hnn _ _ _ Hedge) as Hdist.
    assert (Hle : dist <= rem) by lra.
    rewrite (drive_keep _ _ _ _ _ _ _ _ _ _ Hedge Hle).
    destruct (IH Hrest (rem - dist) cost plan) as (rem' & Hrun & Heq); [lra|].
    exists rem'. split; [assumption|]. lra.
Qed.

(** ** The check at the destination *)

Lemma arrive_enough (prices : Dict.t Q) (end_ : city)
    (rem cost : Q) (plan : list stop) :
  0 <= rem -> arrive prices end_ (rem, cost, plan) = Ret (rem, cost, plan).
Proof.
  intros Hrem. unfold arrive.
  destruct (Qcompare_spec rem 0) as [H|H|H]; try reflexivity.
  exfalso. apply (Qlt_not_le _ _ H Hrem).
Qed.

Lemma arrive_cases (prices : Dict.t Q) (end_ : city)
    (rem cost : Q) (plan : list stop) (st' : sim_state) :
  arrive prices end_ (rem, cost, plan) = Ret st' ->
  (0 <= rem /\ st' = (rem, cost, plan)) \/
  (rem < 0 /\ exists price,
     Dict.get end_ prices = Some price /\
     st' = (rem, cost + Qabs rem * price,
            plan ++ [mk_stop end_ (Qabs rem) price])).
Proof.
  unfold arrive, subscript, bind.
  destruct (Qcompare_spec rem 0) as [H|H|H].
  - intros [= <-]. left. split; [rewrite H; apply Qle_refl|reflexivity].
  - destruct (Dict.get end_ prices) as [price|]; [|discriminate].
    intros [= <-]. right. split; [assumption|]. now exists price.
  - intros [= <-]. left. split; [now apply Qlt_le_weak|reflexivity].
Qed.

Lemma arrive_returns (prices : Dict.t Q) (end_ : city) (st : sim_state) :
  Dict.get end_ prices <> None ->
  exists st', arrive prices end_ st = Ret st'.
Proof.
  intros Hprice. destruct st as [[rem cost] plan]. unfold arrive, subscript.
  destruct (rem ?= 0); try now eexists.
  destruct (Dict.get end_ prices); [now eexists|congruence].
Qed.

(** ** calculate_path, case by case *)

Lemma calculate_path_on_no_route (g : graph) (prices : Dict.t Q)
    (start end_ : city) (battery_capacity : Q) (d : distance) :
  dijkstra g start end_ = Ret (d, []) ->
  calculate_path_on g prices start end_ battery_capacity = Ret no_route.
Proof. intros H. unfold calculate_path_on. now rewrite H. Qed.

Lemma calculate_path_on_route (g : graph) (prices : Dict.t Q)
    (start end_ : city) (battery_capacity : Q)
    (d : distance) (path : list city) :
  dijkstra g start end_ = Ret (d, path) -> path <> [] ->
  calculate_path_on g prices start end_ battery_capacity =
  (st <- drive g prices battery_capacity path (battery_capacity, 0, []) ;;
   st <- arrive prices end_ st ;;
   let '(_, total_cost, charging_plan) := st in
   Ret (Some path, Some d, Some total_cost, Some charging_plan)).
Proof.
  intros H Hne. unfold calculate_path_on. rewrite H. cbn [bind].
  unfold simulate. destruct path; [congruence|reflexivity].
Qed.

(** A returned non-null path comes with the pieces that produced it. *)
Lemma calculate_path_on_cases (g : graph) (prices : Dict.t Q)
    (start end_ : city) (battery_capacity : Q) (r : plan_result) :
  calculate_path_on g prices start end_ battery_capacity = Ret r ->
  r = no_route \/
  exists d path rem cost plan st,
    dijkstra g start end_ = Ret (d, path) /\ path <> [] /\
    drive g prices battery_capacity path (battery_capacity, 0, [])
      = Ret (rem, cost, plan) /\
    arrive prices end_ (rem, cost, plan) = Ret st /\
    r = (Some path, Some d, Some (snd (fst st)), Some (snd st)).
Proof.
  unfold calculate_path_on.
  destruct (dijkstra g start end_) as [[d path]| |] eqn:Hd;
    cbn [bind]; try discriminate.
  unfold simulate. destruct path as [|a path]; [intros [= <-]; now left|].
  destruct (drive g prices battery_capacity (a :: path)
              (battery_capacity, 0, [])) as [[[rem cost] plan]| |] eqn:Hdrive;
    cbn [bind]; try discriminate.
  destruct (arrive prices end_ (rem, cost, plan))
    as [[[rem' cost'] plan']| |] eqn:Harrive; cbn [bind]; try discriminate.
  intros [= <-]. right.
  exists d, (a :: path), rem, cost, plan, (rem', cost', plan').
  repeat split; try assumption. discriminate.
Qed.

(** ** The executable checks are sound *)

Lemma nodupb_sound (l : list string) : nodupb l = true -> NoDup l.
Proof.
  induction l as [|x l IH]; simpl; [constructor|].
  intros H. apply andb_prop in H. destruct H as [Hx Hl].
  constructor; [|now apply IH].
  apply in_set_not_In. now destruct (in_set x l).
Qed.

Lemma mem_true {V : Type} (k : string) (d : Dict.t V) :
  Dict.mem k d = true -> Dict.get k d <> None.
Proof. unfold Dict.mem. destruct (Dict.get k d); congruence. Qed.

Lemma wf_graphb_sound (g : graph) : wf_graphb g = true -> wf_graph g.
Proof.
  unfold wf_graphb. rewrite forallb_forall. intros H n adj Hget.
  specialize (H (n, adj) (get_In _ _ _ Hget)). simpl in H.
  apply andb_prop in H. destruct H as [Hnd Hclosed].
  split; [now apply nodupb_sound|].
  rewrite forallb_forall in Hclosed. intros v Hv.
  apply mem_true. now apply Hclosed.
Qed.

Lemma nonneg_distancesb_sound (g : graph) :
  nonneg_distancesb g = true -> nonneg_distances g.
Proof.
  unfold nonneg_distancesb. rewrite forallb_forall. intros H u v d Hedge.
  unfold edge_distance in Hedge.
  destruct (Dict.get u g) as [adj|] eqn:Hadj; [|discriminate].
  specialize (H (u, adj) (get_In _ _ _ Hadj)). simpl in H.
  rewrite forallb_forall in H.
  specialize (H (v, d) (get_In _ _ _ Hedge)). simpl in H.
  now apply Qle_bool_iff.
Qed.

Lemma prices_coverb_sound (prices : Dict.t Q) (g : graph) :
  prices_coverb prices g = true -> prices_cover prices g.
Proof.
  unfold prices_coverb. rewrite forallb_forall. intros H n Hn.
  apply mem_true. apply H. unfold is_city in Hn.
  destruct (Dict.get n g) as [adj|] eqn:Hadj; [|congruence].
  eapply get_In_keys; eassumption.
Qed.

(** ** Every run the heap contract allows gives the same result *)

(** Two items of which neither is smaller, both with the cost of their
    route, are the same item. *)
Lemma entry_eq_of_not_ltb (g : graph) (x y : entry) :
  cost_ok g x -> cost_ok g y ->
  entry_ltb x y = false -> entry_ltb y x = false -> x = y.
Proof.
  intros Hx Hy Hxy Hyx. unfold entry_ltb in Hxy, Hyx.
  rewrite (entry_compare_antisym x y) in Hyx.
  destruct (entry_compare x y) eqn:Hc; simpl in Hyx; try discriminate.
  apply entry_compare_Eq in Hc. destruct Hc as (_ & Hn & Hp).
  unfold cost_ok in Hx, Hy. rewrite <- Hn, <- Hp, <- Hx in Hy.
  destruct x as [[cx nx] px], y as [[cy ny] py].
  unfold entry_cost, entry_node, entry_path in *. simpl in *. congruence.
Qed.

(** What comes off the heap does not depend on how the heap is arranged. *)
Lemma pops_unique (g : graph) (pq1 pq2 : heap) (x1 x2 : entry)
    (rest1 rest2 : heap) :
  Forall (cost_ok g) pq1 -> Permutation pq1 pq2 ->
  pops pq1 x1 rest1 -> pops pq2 x2 rest2 ->
  x1 = x2 /\ Permutation rest1 rest2.
Proof.
  intros Hok Hperm H1 H2. rewrite Forall_forall in Hok.
  pose proof (pops_In _ _ _ H1) as Hin1.
  pose proof (pops_In _ _ _ H2) as Hin2.
  assert (Hin2' : In x2 pq1)
    by (eapply Permutation_in; [symmetry; exact Hperm|exact Hin2]).
  assert (Hin1' : In x1 pq2)
    by (eapply Permutation_in; [exact Hperm|exact Hin1]).
  assert (Heq : x1 = x2).
  { apply (entry_eq_of_not_ltb g); auto.
    - eapply pops_not_smaller; eassumption.
    - eapply pops_not_smaller; eassumption. }
  split; [assumption|]. subst x2.
  destruct H1 as [P1 _], H2 as [P2 _].
  apply Permutation_cons_inv with (a := x1).
  rewrite <- P1, <- P2. assumption.
Qed.

Lemma push_neighbors_perm (cost : Q) (path visited : list city)
    (items : adjacency) (pq pq' : heap) :
  Permutation pq pq' ->
  Permutation (push_neighbors cost path visited items pq)
              (push_neighbors cost path visited items pq').
Proof.
  revert pq pq'. induction items as [|[v w] items IH]; simpl; intros pq pq' H;
    [assumption|].
  apply IH. destruct (in_set v visited); [assumption|].
  unfold heappush. now constructor.
Qed.

(** Pushed items carry the length of their route. *)
Lemma push_neighbors_cost_ok (g : graph) (cost : Q) (node : city)
    (path visited : list city) (items : adjacency) (rest : heap) :
  wf_graph g -> Dict.get node g = Some items ->
  cost_ok g (cost, node, path) -> Forall (cost_ok g) rest ->
  Forall (cost_ok g)
    (push_neighbors cost (path ++ [node]) visited items rest).
Proof.
  intros Hwf Hitems Hx Hrest. rewrite Forall_forall in *. intros y Hy.
  apply push_neighbors_In in Hy.
  destruct Hy as [Hy|(v & w & Hvw & _ & ->)]; [now apply Hrest|].
  destruct (Hwf _ _ Hitems) as [Hkeys _].
  assert (Hedge : edge_distance g node v = Some w).
  { unfold edge_distance. rewrite Hitems. now apply In_get. }
  unfold cost_ok, entry_cost, entry_node, entry_path in *. simpl in *.
  rewrite route_length_snoc, (leg_distance_edge _ _ _ _ Hedge).
  now rewrite <- Hx.
Qed.

Lemma pops_cost_ok (g : graph) (pq : heap) (x : entry) (rest : heap) :
  Forall (cost_ok g) pq -> pops pq x rest ->
  cost_ok g x /\ Forall (cost_ok g) rest.
Proof.
  intros Hok [Hperm _]. rewrite Hperm in Hok.
  inversion Hok; subst. now split.
Qed.

(** One run pops an item while the other finds the same heap empty. *)
Ltac heap_not_empty Hperm Hpop :=
  first [apply Permutation_nil in Hperm
        |apply Permutation_sym, Permutation_nil in Hperm];
  subst; destruct Hpop as [Hperm _];
  apply Permutation_nil in Hperm; discriminate.

(** Both runs pop the same item and keep the same items. *)
Ltac same_pop Hok Hperm Hpop1 Hpop2 :=
  let Heq := fresh "Heq" in
  let Hrests := fresh "Hrests" in
  destruct (pops_unique _ _ _ _ _ _ _ Hok Hperm Hpop1 Hpop2) as [Heq Hrests];
  try (injection Heq as ? ? ?); subst.

Section Determinism.

Variable g : graph.
Variable end_ : city.
Hypothesis Hwf : wf_graph g.

Lemma search_deterministic (pq1 : heap) (visited : list city)
    (r1 : outcome (distance * list city)) :
  search g end_ pq1 visited r1 ->
  Forall (cost_ok g) pq1 ->
  forall pq2 r2,
    Permutation pq1 pq2 -> search g end_ pq2 visited r2 -> r1 = r2.
Proof.
  induction 1 as
    [ visited
    | pq1 x1 rest1 visited r1 Hpop1 Hvis1 Hrun1 IH
    | pq1 cost1 path1 rest1 visited Hpop1 Hvis1
    | pq1 cost1 node1 path1 rest1 visited Hpop1 Hvis1 Hne1 Hget1
    | pq1 cost1 node1 path1 rest1 visited items1 pq1' r1
        Hpop1 Hvis1 Hne1 Hget1 Hpush1 Hrun1 IH ];
    intros Hok pq2 r2 Hperm Hrun2;
    inversion Hrun2 as
      [ ?
      | ? x2 rest2 ? ? Hpop2 Hvis2 Hrun2'
      | ? cost2 path2 rest2 ? Hpop2 Hvis2
      | ? cost2 node2 path2 rest2 ? Hpop2 Hvis2 Hne2 Hget2
      | ? cost2 node2 path2 rest2 ? items2 pq2' ? Hpop2 Hvis2 Hne2 Hget2
          Hpush2 Hrun2' ];
    subst;
    try reflexivity;
    try (heap_not_empty Hperm Hpop1);
    try (heap_not_empty Hperm Hpop2);
    same_pop Hok Hperm Hpop1 Hpop2;
    try contradiction; try congruence.
  - (* both skip a visited city *)
    destruct (pops_cost_ok _ _ _ _ Hok Hpop1) as [_ Hrest].
    eapply IH; eassumption.
  - (* both expand the same city *)
    destruct (pops_cost_ok _ _ _ _ Hok Hpop1) as [Hx Hrest].
    assert (items2 = items1) by congruence. subst items2.
    apply IH with (pq2 := pq2'); [| |assumption].
    + rewrite Hpush1.
      now apply push_neighbors_cost_ok with (node := node2).
    + rewrite Hpush1, Hpush2. now apply push_neighbors_perm.
Qed.

End Determinism.

(** The loop never needs more iterations than its measure. *)
Lemma dijkstra_loop_fuel (g : graph) (end_ : city) (fuel : nat) :
  forall pq visited,
    (length pq + pending_degree g visited <= fuel)%nat ->
    dijkstra_loop fuel g end_ pq visited <> OutOfFuel.
Proof.
  induction fuel as [|fuel IH]; intros pq visited Hfuel.
  - destruct pq as [|x pq]; [discriminate|simpl in Hfuel; lia].
  - simpl. destruct (heappop pq) as [[[[cost node] path] rest]|] eqn:Hpop;
      [|discriminate].
    pose proof (heappop_Some _ _ _ Hpop) as [Hperm _].
    apply Permutation_length in Hperm. simpl in Hperm.
    destruct (in_set node visited) eqn:Hvis; [apply IH; lia|].
    apply in_set_not_In in Hvis.
    destruct (String.eqb node end_); [discriminate|].
    destruct (Dict.get node g) as [items|] eqn:Hitems; [|discriminate].
    apply IH.
    pose proof (push_neighbors_length cost (path ++ [node])
                  (node :: visited) items rest).
    pose proof (pending_degree_visit _ _ _ _ Hitems Hvis).
    lia.
Qed.

(** [dijkstra] always comes back, with a result or with [KeyError]. *)
Lemma dijkstra_terminates (g : graph) (start end_ : city) :
  dijkstra g start end_ <> OutOfFuel.
Proof.
  apply dijkstra_loop_fuel. rewrite pending_degree_nil. simpl. lia.
Qed.

(** The executable loop is one of the runs that the contract allows. *)
Lemma dijkstra_loop_search (g : graph) (end_ : city) (fuel : nat) :
  forall pq visited,
    dijkstra_loop fuel g end_ pq visited <> OutOfFuel ->
    search g end_ pq visited (dijkstra_loop fuel g end_ pq visited).
Proof.
  induction fuel as [|fuel IH]; intros pq visited.
  - simpl. destruct (heappop pq) as [[[[cost node] path] rest]|] eqn:Hpop;
      [congruence|].
    apply heappop_None in Hpop. subst. intros _. constructor.
  - simpl. destruct (heappop pq) as [[[[cost node] path] rest]|] eqn:Hpop.
    + apply heappop_pops in Hpop.
      destruct (in_set node visited) eqn:Hvis.
      * apply in_set_In in Hvis. intros Hfuel.
        eapply search_skip; [exact Hpop|exact Hvis|now apply IH].
      * apply in_set_not_In in Hvis.
        destruct (String.eqb_spec node end_) as [->|Hne].
        -- intros _. eapply search_found; eassumption.
        -- destruct (Dict.get node g) as [items|] eqn:Hitems.
           ++ intros Hfuel.
              eapply search_expand; try eassumption; [reflexivity|].
              now apply IH.
           ++ intros _. eapply search_raise; eassumption.
    + apply heappop_None in Hpop. subst. intros _. constructor.
Qed.

Lemma dijkstra_is_run (g : graph) (start end_ : city) :
  dijkstra_run g start end_ (dijkstra g start end_).
Proof. apply dijkstra_loop_search, dijkstra_terminates. Qed.

Lemma calculate_path_on_is_run (g : graph) (prices : Dict.t Q)
    (start end_ : city) (battery_capacity : Q) :
  calculate_path_run g prices start end_ battery_capacity
    (calculate_path_on g prices start end_ battery_capacity).
Proof.
  exists (dijkstra g start end_). split; [apply dijkstra_is_run|reflexivity].
Qed.

(** ** Graphs built with [add_edge] are well formed *)

Lemma get_set_same {V : Type} (k : string) (v : V) (d : Dict.t V) :
  Dict.get k (Dict.set k v d) = Some v.
Proof.
  induction d as [|[k' v'] d IH]; simpl.
  - now rewrite String.eqb_refl.
  - destruct (String.eqb_spec k k') as [->|Hne]; simpl.
    + now rewrite String.eqb_refl.
    + destruct (String.eqb_spec k k'); [congruence|assumption].
Qed.

Lemma get_set_other {V : Type} (k k' : string) (v : V) (d : Dict.t V) :
  k <> k' -> Dict.get k (Dict.set k' v d) = Dict.get k d.
Proof.
  intros Hne. induction d as [|[k'' v''] d IH]; simpl.
  - destruct (String.eqb_spec k k'); [congruence|reflexivity].
  - destruct (String.eqb_spec k' k'') as [->|Hne']; simpl.
    + destruct (String.eqb_spec k k''); [congruence|reflexivity].
    + destruct (String.eqb_spec k k''); [reflexivity|assumption].
Qed.

Lemma keys_set_In {V : Type} (x k : string) (v : V) (d : Dict.t V) :
  In x (Dict.keys (Dict.set k v d)) -> x = k \/ In x (Dict.keys d).
Proof.
  induction d as [|[k' v'] d IH]; simpl.
  - intros [<-|[]]. now left.
  - destruct (String.eqb_spec k k') as [->|Hne]; simpl.
    + intros H. now right.
    + intros [<-|H]; [right; now left|].
      destruct (IH H); [now left|right; now right].
Qed.

Lemma NoDup_keys_set {V : Type} (k : string) (v : V) (d : Dict.t V) :
  NoDup (Dict.keys d) -> NoDup (Dict.keys (Dict.set k v d)).
Proof.
  induction d as [|[k' v'] d IH]; simpl; intros Hnd.
  - repeat constructor. intros [].
  - inversion Hnd as [|? ? Hnot Hnd']; subst.
    destruct (String.eqb_spec k k') as [->|Hne]; simpl.
    + now constructor.
    + constructor; [|now apply IH].
      intros Hin. apply keys_set_In in Hin. destruct Hin; congruence.
Qed.

Lemma get_app {V : Type} (k : string) (d d' : Dict.t V) :
  Dict.get k (d ++ d') =
  match Dict.get k d with Some v => Some v | None => Dict.get k d' end.
Proof.
  induction d as [|[k' v'] d IH]; simpl; [reflexivity|].
  destruct (String.eqb k k'); [reflexivity|assumption].
Qed.

Lemma get_add_node (n m : city) (g : graph) :
  Dict.get n (add_node m g) =
  match Dict.get n g with
  | Some adj => Some adj
  | None => if String.eqb n m then Some [] else None
  end.
Proof.
  unfold add_node, Dict.mem.
  destruct (Dict.get m g) as [adj|] eqn:Hm.
  - destruct (Dict.get n g) eqn:Hn; [reflexivity|].
    destruct (String.eqb_spec n m); [congruence|reflexivity].
  - rewrite get_app. simpl. destruct (Dict.get n g); reflexivity.
Qed.

Lemma is_city_add_node (n m : city) (g : graph) :
  is_city (add_node m g) n <-> is_city g n \/ n = m.
Proof.
  unfold is_city. rewrite get_add_node.
  destruct (Dict.get n g); destruct (String.eqb_spec n m);
    split; intros H; try congruence; auto; try discriminate.
  destruct H; congruence.
Qed.

Lemma wf_add_node (m : city) (g : graph) :
  wf_graph g -> wf_graph (add_node m g).
Proof.
  intros Hwf n adj. rewrite get_add_node.
  destruct (Dict.get n g) as [adj'|] eqn:Hn.
  - intros [= <-]. destruct (Hwf _ _ Hn) as [Hnd Hclosed].
    split; [assumption|]. intros v Hv.
    apply is_city_add_node. left. now apply Hclosed.
  - destruct (String.eqb n m); [|discriminate].
    intros [= <-]. split; [constructor|intros v []].
Qed.

Lemma is_city_set_adj (n u v : city) (d : Q) (g : graph) :
  is_city (set_adj u v d g) n <-> is_city g n.
Proof.
  unfold is_city, set_adj.
  destruct (Dict.get u g) as [adj|] eqn:Hu; [|reflexivity].
  destruct (string_dec n u) as [->|Hne].
  - rewrite get_set_same, Hu. split; congruence.
  - now rewrite get_set_other.
Qed.

Lemma wf_set_adj (u v : city) (d : Q) (g : graph) :
  wf_graph g -> is_city g v -> wf_graph (set_adj u v d g).
Proof.
  intros Hwf Hv n adj Hget.
  assert (Hcity : forall w, is_city g w -> Dict.get w (set_adj u v d g) <> None).
  { intros w Hw. now apply is_city_set_adj. }
  unfold set_adj in Hget.
  destruct (Dict.get u g) as [adj_u|] eqn:Hu.
  - destruct (string_dec n u) as [->|Hne].
    + rewrite get_set_same in Hget. injection Hget as <-.
      destruct (Hwf _ _ Hu) as [Hnd Hclosed].
      split; [now apply NoDup_keys_set|].
      intros w Hw. apply Hcity. apply keys_set_In in Hw.
      destruct Hw as [->|Hw]; [assumption|now apply Hclosed].
    + rewrite get_set_other in Hget by assumption.
      destruct (Hwf _ _ Hget) as [Hnd Hclosed].
      split; [assumption|]. intros w Hw. apply Hcity. now apply Hclosed.
  - destruct (Hwf _ _ Hget) as [Hnd Hclosed].
    split; [assumption|]. intros w Hw. apply Hcity. now apply Hclosed.
Qed.

Lemma wf_add_edge (g : graph) (u v : city) (d : Q) :
  wf_graph g -> wf_graph (add_edge g u v d).
Proof.
  intros Hwf. unfold add_edge.
  assert (Hu : is_city (add_node v (add_node u g)) u).
  { apply is_city_add_node. left. apply is_city_add_node. now right. }
  assert (Hv : is_city (add_node v (add_node u g)) v).
  { apply is_city_add_node. now right. }
  apply wf_set_adj.
  - apply wf_set_adj; [|assumption]. now apply wf_add_node, wf_add_node.
  - now apply is_city_set_adj.
Qed.

(** Whatever list of roads the graph is built from, it is well formed. *)
Lemma wf_from_edges (es : list (city * city * Q)) : wf_graph (from_edges es).
Proof.
  unfold from_edges.
  assert (Hgen : forall g, wf_graph g ->
            wf_graph (fold_left (fun g '(u, v, d) => add_edge g u v d) es g)).
  { induction es as [|[[u v] d] es IH]; intros g Hg; simpl; [assumption|].
    apply IH. now apply wf_add_edge. }
  apply Hgen. intros n adj H. discriminate.
Qed.

(** ** The dataset *)

Lemma G_wf : wf_graph G.
Proof. apply wf_from_edges. Qed.

Lemma G_nonneg : nonneg_distances G.
Proof. apply nonneg_distancesb_sound. vm_compute. reflexivity. Qed.

Lemma G_priced : prices_cover charging_prices G.
Proof. apply prices_coverb_sound. vm_compute. reflexivity. Qed.

(** The cities in the order [add_edge] met them, as [list(G.nodes)]. *)
Example G_nodes :
  Dict.keys G =
  ["Mumbai"; "Nashik"; "Goa"; "Pune"; "Satara"; "Kolhapur"; "Hyderabad"].
Proof. reflexivity. Qed.

(** Pune to Kolhapur on a 500-unit battery: 300 km, nothing to charge. *)
Example pune_kolhapur_500 :
  calculate_path "Pune" "Kolhapur" 500
  = Ret (Some ["Pune"; "Satara"; "Kolhapur"], Some (Finite 300),
         Some 0, Some []).
Proof. vm_compute. reflexivity. Qed.

(** A city outside the graph as start raises, as destination has no route. *)
Example unknown_start :
  calculate_path "Atlantis" "Mumbai" 100 = KeyError "Atlantis".
Proof. vm_compute. reflexivity. Qed.

Example unknown_end :
  calculate_path "Mumbai" "Atlantis" 100 = Ret no_route.
Proof. vm_compute. reflexivity. Qed.

(** * The specified properties *)

(** C1. Between two connected cities [dijkstra] returns a route from
    [start] to [end_] together with its length, and no route from [start]
    to [end_] is shorter.  Distances are assumed non-negative. *)
Theorem dijkstra_shortest_path (g : graph) (start end_ : city) :
  wf_graph g -> nonneg_distances g -> connected g start end_ ->
  exists d path,
    dijkstra g start end_ = Ret (Finite d, path) /\
    is_route g start end_ path /\
    d = route_length g path /\
    forall q, is_route g start end_ q -> d <= route_length g q.
Proof.
  intros Hwf Hnn Hconn.
  destruct (dijkstra_connected g start end_ Hwf Hconn)
    as (d & path & Heq & Hroute & Hlen & _ & Hmin).
  exists d, path. repeat split; try assumption; try apply Hroute.
  now apply Hmin.
Qed.

Lemma dijkstra_shortest_path_witness :
  exists d path,
    dijkstra G "Mumbai" "Hyderabad" = Ret (Finite d, path) /\
    is_route G "Mumbai" "Hyderabad" path /\
    d = route_length G path /\
    forall q, is_route G "Mumbai" "Hyderabad" q -> d <= route_length G q.
Proof.
  apply (dijkstra_shortest_path G "Mumbai" "Hyderabad").
  - apply wf_graphb_sound. vm_compute. reflexivity.
  - apply nonneg_distancesb_sound. vm_compute. reflexivity.
  - exists ["Mumbai"; "Goa"; "Hyderabad"].
    split; [reflexivity|]. split; [reflexivity|].
    repeat constructor; vm_compute; discriminate.
Defined.

(** C2. Between two connected cities of the graph the total that
    [dijkstra] returns is the sum of the road distances over the
    consecutive pairs of the returned path, and [calculate_path] hands
    that same path and total back. *)
Theorem total_distance_is_route_length (g : graph) (prices : Dict.t Q)
    (start end_ : city) (battery_capacity : Q) :
  wf_graph g -> prices_cover prices g ->
  is_city g start -> connected g start end_ ->
  exists d path cost plan,
    dijkstra g start end_ = Ret (Finite d, path) /\
    is_route g start end_ path /\
    d = route_length g path /\
    calculate_path_on g prices start end_ battery_capacity
      = Ret (Some path, Some (Finite d), Some cost, Some plan).
Proof.
  intros Hwf Hprices Hstart Hconn.
  destruct (dijkstra_connected g start end_ Hwf Hconn)
    as (d & path & Heq & Hroute & Hlen & _ & _).
  simpl in Hroute, Hlen.
  assert (Hne : path <> []).
  { destruct Hroute as [Hhd _]. intros ->. discriminate. }
  assert (Hcities : Forall (is_city g) path).
  { destruct Hroute as (Hhd & _ & Hlegs).
    destruct path as [|a path]; [congruence|].
    injection Hhd as ->. now apply route_cities. }
  assert (Hend : is_city g end_).
  { destruct Hroute as (_ & Hlast & _). rewrite Forall_forall in Hcities.
    apply Hcities. rewrite <- Hlast.
    destruct (exists_last Hne) as (p & z & ->).
    rewrite last_last. apply in_or_app. right. now left. }
  destruct (drive_returns g prices battery_capacity path)
    with (st := (battery_capacity, 0, @nil stop)) as ([[rem cost] plan] & Hdrive).
  { apply Hroute. }
  { intros n Hn. apply Hprices. rewrite Forall_forall in Hcities.
    apply Hcities. destruct (exists_last Hne) as (p & z & ->).
    rewrite removelast_last in Hn. apply in_or_app. now left. }
  destruct (arrive_returns prices end_ (rem, cost, plan) (Hprices _ Hend))
    as ([[rem' cost'] plan'] & Harrive).
  exists d, path, cost', plan'. repeat split; try assumption;
    try apply Hroute.
  rewrite (calculate_path_on_route _ _ _ _ _ _ _ Heq Hne).
  rewrite Hdrive. cbn [bind]. rewrite Harrive. reflexivity.
Qed.

Lemma total_distance_is_route_length_witness :
  exists d path cost plan,
    dijkstra G "Nashik" "Goa" = Ret (Finite d, path) /\
    is_route G "Nashik" "Goa" path /\
    d = route_length G path /\
    calculate_path_on G charging_prices "Nashik" "Goa" 250
      = Ret (Some path, Some (Finite d), Some cost, Some plan).
Proof.
  apply (total_distance_is_route_length G charging_prices "Nashik" "Goa" 250).
  - apply wf_graphb_sound. vm_compute. reflexivity.
  - apply prices_coverb_sound. vm_compute. reflexivity.
  - vm_compute. discriminate.
  - exists ["Nashik"; "Mumbai"; "Goa"].
    split; [reflexivity|]. split; [reflexivity|].
    repeat constructor; vm_compute; discriminate.
Defined.

(** C3 fails on Mumbai to Goa with capacity 400.25: 179.75 units are
    charged at Goa, 359.5 at price 2.0, while the plan's line for Goa
    says 179.8 units, which at that price would come to 359.6. *)
Lemma rounded_amount_breaks_sum : ~ cost_is_sum_over_returned_plan.
Proof.
  intros Hclaim.
  assert (Hrun : calculate_path "Mumbai" "Goa" (40025 # 100)
                 = Ret (Some ["Mumbai"; "Goa"], Some (Finite 580),
                        Some (0 + ((40025 # 100) - (40025 # 100)) * (18 # 10)
                              + Qabs ((40025 # 100) - 580) * 2),
                        Some [mk_stop "Mumbai"
                                ((40025 # 100) - (40025 # 100)) (18 # 10);
                              mk_stop "Goa"
                                (Qabs ((40025 # 100) - 580)) 2]))
    by (vm_compute; reflexivity).
  specialize (Hclaim _ _ _ _ _ _ _ Hrun).
  vm_compute in Hclaim. discriminate Hclaim.
Qed.

Lemma Qmake_tenths (n : Z) : n # 10 == inject_Z n / 10.
Proof. unfold Qeq, Qdiv, Qmult, Qinv, inject_Z. simpl. lia. Qed.

(** What [:.1f] writes is within half a tenth of the number. *)
Lemma round_1f_close (x : Q) : Qabs (round_1f x - x) <= 1 # 20.
Proof.
  unfold round_1f.
  pose proof (Qfloor_le (x * 10)) as Hlo.
  pose proof (Qlt_floor (x * 10)) as Hhi.
  rewrite inject_Z_plus in Hhi.
  change (inject_Z 1) with 1 in Hhi.
  generalize dependent (Qfloor (x * 10)). intros n Hlo Hhi.
  apply Qabs_Qle_condition.
  destruct (Qcompare_spec (x * 10 - inject_Z n) (1 # 2)) as [H|H|H];
    [destruct (Z.even n)| |];
    rewrite Qmake_tenths; try rewrite inject_Z_plus;
    change (inject_Z 1) with 1;
    unfold Qdiv; change (/ 10) with (1 # 10);
    split; lra.
Qed.

(** What [:.1f] does with a tie, a small amount and a plain one. *)
Example round_1f_samples :
  round_1f (17975 # 100) == 1798 # 10 /\
  round_1f (17965 # 100) == 1796 # 10 /\
  round_1f (4 # 100) == 0 /\
  round_1f 180 == 180.
Proof. repeat split; vm_compute; reflexivity. Qed.

(** C3, amended.  Whenever [calculate_path] returns a path, the total
    cost it returns is the sum, over the stops of the plan and in plan
    order, of the energy charged at the stop times the price listed for
    the stop's city (which is the price the stop records); the amount
    the plan's text states for a stop is that energy rounded to one
    decimal, at most 0.05 away from it, with the same city and price. *)
Theorem total_cost_is_plan_cost (g : graph) (prices : Dict.t Q)
    (start end_ : city) (battery_capacity : Q)
    (path : list city) (d : option distance) (cost : Q) (plan : list stop) :
  calculate_path_on g prices start end_ battery_capacity
    = Ret (Some path, d, Some cost, Some plan) ->
  cost = plan_cost prices plan /\
  Forall (priced prices) plan /\
  Forall (fun s => Qabs (stop_energy (written s) - stop_energy s) <= 1 # 20 /\
                   stop_city (written s) = stop_city s /\
                   stop_price (written s) = stop_price s) plan.
Proof.
  intros Hrun.
  assert (Hwritten : Forall
            (fun s => Qabs (stop_energy (written s) - stop_energy s) <= 1 # 20
                      /\ stop_city (written s) = stop_city s
                      /\ stop_price (written s) = stop_price s) plan).
  { rewrite Forall_forall. intros s _.
    split; [apply round_1f_close|split; reflexivity]. }
  destruct (calculate_path_on_cases _ _ _ _ _ _ Hrun)
    as [Hno|(d' & path' & rem & cost1 & plan1 & st & _ & _
             & Hdrive & Harrive & Hr)]; [discriminate|].
  destruct (drive_plan _ _ _ _ _ _ _ _ _ _ Hdrive)
    as (added & Hplan & Hcost & _ & Hpriced).
  simpl in Hplan. subst plan1. fold (plan_cost prices added) in Hcost.
  destruct (arrive_cases _ _ _ _ _ _ Harrive)
    as [[_ ->]|(_ & price & Hprice & ->)];
    cbn [fst snd] in Hr; injection Hr as _ _ -> ->.
  - now repeat split.
  - split; [|split; [|assumption]].
    + unfold plan_cost. rewrite fold_left_app. cbn [fold_left].
      fold (plan_cost prices added). rewrite <- Hcost.
      unfold stop_cost. cbn [stop_city stop_energy]. now rewrite Hprice.
    + apply Forall_app. split; [assumption|].
      constructor; [exact Hprice|constructor].
Qed.

Lemma total_cost_is_plan_cost_witness :
  0 + ((40025 # 100) - (40025 # 100)) * (18 # 10)
    + Qabs ((40025 # 100) - 580) * 2
  = plan_cost charging_prices
      [mk_stop "Mumbai" ((40025 # 100) - (40025 # 100)) (18 # 10);
       mk_stop "Goa" (Qabs ((40025 # 100) - 580)) 2] /\
  Forall (priced charging_prices)
    [mk_stop "Mumbai" ((40025 # 100) - (40025 # 100)) (18 # 10);
     mk_stop "Goa" (Qabs ((40025 # 100) - 580)) 2] /\
  Forall (fun s => Qabs (stop_energy (written s) - stop_energy s) <= 1 # 20 /\
                   stop_city (written s) = stop_city s /\
                   stop_price (written s) = stop_price s)
    [mk_stop "Mumbai" ((40025 # 100) - (40025 # 100)) (18 # 10);
     mk_stop "Goa" (Qabs ((40025 # 100) - 580)) 2].
Proof.
  apply (total_cost_is_plan_cost G charging_prices "Mumbai" "Goa"
           (40025 # 100) ["Mumbai"; "Goa"] (Some (Finite 580))).
  vm_compute. reflexivity.
Defined.

(** C4 fails on Mumbai to Goa with capacity 400: the battery is full when
    the 580 km leg turns out too long, so the stop at Mumbai records a
    recharge of 0 units. *)
Lemma zero_unit_stop : ~ every_stop_within_capacity.
Proof.
  intros Hclaim.
  assert (Hconn : connected G "Mumbai" "Goa").
  { exists ["Mumbai"; "Goa"]. split; [reflexivity|]. split; [reflexivity|].
    repeat constructor; vm_compute; discriminate. }
  assert (Hcap : 0 < 400) by reflexivity.
  assert (Hrun : calculate_path "Mumbai" "Goa" 400
                 = Ret (Some ["Mumbai"; "Goa"], Some (Finite 580),
                        Some (0 + 0 * (18 # 10) + 180 * 2),
                        Some [mk_stop "Mumbai" 0 (18 # 10);
                              mk_stop "Goa" 180 2]))
    by (vm_compute; reflexivity).
  specialize (Hclaim _ _ _ _ _ _ _ Hconn Hcap Hrun).
  inversion Hclaim as [|? ? [Hpos _] _]; subst.
  revert Hpos. cbn [stop_energy]. apply Qlt_irrefl.
Qed.

(** The upper bound fails as well: with capacity 100 the same trip ends
    480 units short, all of them charged at Goa. *)
Example oversized_stop :
  exists path d cost plan,
    calculate_path "Mumbai" "Goa" 100 = Ret (Some path, d, cost, Some plan) /\
    Exists (fun s => ~ stop_energy s <= 100) plan.
Proof.
  do 4 eexists. split; [vm_compute; reflexivity|].
  apply Exists_cons_tl, Exists_cons_hd. apply Qlt_not_le. reflexivity.
Qed.

(** C4, amended.  With non-negative distances no stop records a negative
    amount; and when no leg of the returned path is longer than the
    battery capacity, every stop records more than 0 units and at most
    the capacity. *)
Theorem stop_energy_bounds (g : graph) (prices : Dict.t Q)
    (start end_ : city) (battery_capacity : Q)
    (path : list city) (d : option distance) (cost : option Q)
    (plan : list stop) :
  nonneg_distances g ->
  calculate_path_on g prices start end_ battery_capacity
    = Ret (Some path, d, cost, Some plan) ->
  Forall (fun s => 0 <= stop_energy s) plan /\
  (0 <= battery_capacity ->
   Forall (fun leg => leg_distance g leg <= battery_capacity) (legs path) ->
   Forall (fun s => 0 < stop_energy s <= battery_capacity) plan).
Proof.
  intros Hnn Hrun.
  destruct (calculate_path_on_cases _ _ _ _ _ _ Hrun)
    as [Hno|(d' & path' & rem & cost1 & plan1 & st & _ & _
             & Hdrive & Harrive & Hr)]; [discriminate|].
  assert (path' = path) by (injection Hr; congruence). subst path'.
  split.
  - destruct (drive_energy_nonneg _ _ _ _ Hnn _ _ _ _ _ _ Hdrive)
      as [_ Hplan1]; [apply Qle_refl|constructor|].
    destruct (arrive_cases _ _ _ _ _ _ Harrive)
      as [[_ ->]|(_ & price & _ & ->)];
      cbn [fst snd] in Hr; injection Hr as _ _ ->; [assumption|].
    apply Forall_app. split; [assumption|].
    constructor; [apply Qabs_nonneg|constructor].
  - intros Hcap Hlegs.
    destruct (drive_energy_bounded _ _ _ _ Hlegs _ _ _ _ _ _ Hdrive)
      as [Hrem Hplan1]; [assumption|constructor|].
    destruct (arrive_cases _ _ _ _ _ _ Harrive)
      as [[_ ->]|(Hneg & _)].
    + cbn [fst snd] in Hr. injection Hr as _ _ ->. assumption.
    + exfalso. apply (Qlt_not_le _ _ Hneg Hrem).
Qed.

Lemma stop_energy_bounds_witness :
  Forall (fun s => 0 <= stop_energy s)
    [mk_stop "Nashik" (300 - (300 - 180)) (15 # 10)] /\
  (0 <= 300 ->
   Forall (fun leg => leg_distance G leg <= 300)
     (legs ["Mumbai"; "Nashik"; "Pune"]) ->
   Forall (fun s => 0 < stop_energy s <= 300)
     [mk_stop "Nashik" (300 - (300 - 180)) (15 # 10)]).
Proof.
  apply (stop_energy_bounds G charging_prices "Mumbai" "Pune" 300
           ["Mumbai"; "Nashik"; "Pune"] (Some (Finite 480))
           (Some (0 + (300 - (300 - 180)) * (15 # 10)))).
  - apply nonneg_distancesb_sound. vm_compute. reflexivity.
  - vm_compute. reflexivity.
Defined.

(** C5. Between two connected cities, a battery capacity that is at least
    the total distance of the returned path gives an empty charging plan
    and a total cost of 0.  Distances are assumed non-negative. *)
Theorem enough_capacity_no_charging (g : graph) (prices : Dict.t Q)
    (start end_ : city) :
  wf_graph g -> nonneg_distances g -> connected g start end_ ->
  exists d path,
    dijkstra g start end_ = Ret (Finite d, path) /\
    forall battery_capacity,
      d <= battery_capacity ->
      calculate_path_on g prices start end_ battery_capacity
        = Ret (Some path, Some (Finite d), Some 0, Some []).
Proof.
  intros Hwf Hnn Hconn.
  destruct (dijkstra_connected g start end_ Hwf Hconn)
    as (d & path & Heq & Hroute & Hlen & _ & _).
  simpl in Hroute, Hlen.
  exists d, path. split; [assumption|]. intros battery_capacity Hcap.
  assert (Hne : path <> []).
  { destruct Hroute as [Hhd _]. intros ->. discriminate. }
  destruct (drive_enough g prices battery_capacity path Hnn)
    with (rem := battery_capacity) (cost := 0) (plan := @nil stop)
    as (rem' & Hdrive & Hrem').
  { apply Hroute. }
  { now rewrite <- Hlen. }
  rewrite (calculate_path_on_route _ _ _ _ _ _ _ Heq Hne).
  rewrite Hdrive. cbn [bind]. rewrite arrive_enough; [reflexivity|].
  rewrite Hrem', <- Hlen. lra.
Qed.

Lemma enough_capacity_no_charging_witness :
  exists d path,
    dijkstra G "Pune" "Kolhapur" = Ret (Finite d, path) /\
    forall battery_capacity,
      d <= battery_capacity ->
      calculate_path_on G charging_prices "Pune" "Kolhapur" battery_capacity
        = Ret (Some path, Some (Finite d), Some 0, Some []).
Proof.
  apply (enough_capacity_no_charging G charging_prices "Pune" "Kolhapur").
  - apply wf_graphb_sound. vm_compute. reflexivity.
  - apply nonneg_distancesb_sound. vm_compute. reflexivity.
  - exists ["Pune"; "Satara"; "Kolhapur"].
    split; [reflexivity|]. split; [reflexivity|].
    repeat constructor; vm_compute; discriminate.
Defined.

(** C6. When no route leads from a city [start] of the graph to [end_],
    [dijkstra] returns infinity with the empty path and [calculate_path]
    returns four [None]s, whatever the battery capacity. *)
Theorem no_route_result (g : graph) (prices : Dict.t Q) (start end_ : city) :
  wf_graph g -> is_city g start -> ~ connected g start end_ ->
  dijkstra g start end_ = Ret (Infinity, []) /\
  forall battery_capacity,
    calculate_path_on g prices start end_ battery_capacity
      = Ret (None, None, None, None).
Proof.
  intros Hwf Hstart Hno.
  destruct (dijkstra_correct g start end_ Hwf (or_introl Hstart))
    as ([[d|] path] & Heq & Hpost).
  - exfalso. apply Hno. exists path. apply Hpost.
  - destruct Hpost as [Hpath _]. simpl in Hpath. subst path.
    split; [assumption|]. intros battery_capacity.
    eapply calculate_path_on_no_route. eassumption.
Qed.

Lemma no_route_result_witness :
  dijkstra two_islands "Mumbai" "Goa" = Ret (Infinity, []) /\
  forall battery_capacity,
    calculate_path_on two_islands charging_prices "Mumbai" "Goa"
      battery_capacity
    = Ret (None, None, None, None).
Proof.
  assert (Hwf : wf_graph two_islands)
    by (apply wf_graphb_sound; vm_compute; reflexivity).
  assert (Hstart : is_city two_islands "Mumbai")
    by (vm_compute; discriminate).
  apply (no_route_result two_islands charging_prices "Mumbai" "Goa"
           Hwf Hstart).
  apply (dijkstra_infinity_no_route two_islands "Mumbai" "Goa" []
           Hwf Hstart).
  vm_compute. reflexivity.
Defined.

(** C7. On the fixed dataset, Mumbai to Goa with capacity 400: the path
    is the direct road, 580 km; the plan is a 0-unit stop at Mumbai at
    price 1.8 followed by a 180-unit stop at Goa at price 2.0; the total
    cost is 360. *)
Theorem mumbai_goa_400 :
  exists total_cost,
    calculate_path "Mumbai" "Goa" 400
      = Ret (Some ["Mumbai"; "Goa"],
             Some (Finite 580),
             Some total_cost,
             Some [mk_stop "Mumbai" 0 (18 # 10); mk_stop "Goa" 180 2]) /\
    total_cost == 360.
Proof.
  eexists. split; [vm_compute; reflexivity|reflexivity].
Qed.

(** C8. Two invocations of [calculate_path] with the same start, end and
    capacity on the same graph return the same path, total distance,
    total cost and charging plan, however the heap arranges its items;
    both return what the executable [calculate_path] computes. *)
Theorem calculate_path_deterministic (g : graph) (prices : Dict.t Q)
    (start end_ : city) (battery_capacity : Q)
    (out1 out2 : outcome plan_result) :
  wf_graph g ->
  calculate_path_run g prices start end_ battery_capacity out1 ->
  calculate_path_run g prices start end_ battery_capacity out2 ->
  out1 = out2 /\
  out1 = calculate_path_on g prices start end_ battery_capacity.
Proof.
  intros Hwf Hrun1 Hrun2.
  assert (Hsame : forall out out',
            calculate_path_run g prices start end_ battery_capacity out ->
            calculate_path_run g prices start end_ battery_capacity out' ->
            out = out').
  { intros out out' (r & Hr & ->) (r' & Hr' & ->).
    assert (Heq : r = r').
    { apply (search_deterministic g end_ Hwf _ _ _ Hr)
        with (pq2 := [(0, start, [])]).
      - repeat constructor.
      - reflexivity.
      - exact Hr'. }
    now rewrite Heq. }
  split; [now apply Hsame|].
  apply Hsame; [assumption|apply calculate_path_on_is_run].
Qed.

Lemma calculate_path_deterministic_witness :
  calculate_path "Mumbai" "Goa" 400
  = Ret (Some ["Mumbai"; "Goa"], Some (Finite 580),
         Some (0 + 0 * (18 # 10) + 180 * 2),
         Some [mk_stop "Mumbai" 0 (18 # 10); mk_stop "Goa" 180 2]) /\
  calculate_path "Mumbai" "Goa" 400
  = calculate_path_on G charging_prices "Mumbai" "Goa" 400.
Proof.
  apply (calculate_path_deterministic G charging_prices "Mumbai" "Goa" 400).
  - apply wf_graphb_sound. vm_compute. reflexivity.
  - apply calculate_path_on_is_run.
  - replace (Ret (Some ["Mumbai"; "Goa"], Some (Finite 580),
                  Some (0 + 0 * (18 # 10) + 180 * 2),
                  Some [mk_stop "Mumbai" 0 (18 # 10); mk_stop "Goa" 180 2]))
      with (calculate_path_on G charging_prices "Mumbai" "Goa" 400)
      by (vm_compute; reflexivity).
    apply calculate_path_on_is_run.
Defined.

(** C9. Between two connected cities the path that [dijkstra] returns
    visits no city twice. *)
Theorem dijkstra_path_simple (g : graph) (start end_ : city) :
  wf_graph g -> connected g start end_ ->
  exists d path,
    dijkstra g start end_ = Ret (Finite d, path) /\ NoDup path.
Proof.
  intros Hwf Hconn.
  destruct (dijkstra_connected g start end_ Hwf Hconn)
    as (d & path & Heq & _ & _ & Hnd & _).
  exists d, path. now split.
Qed.

Lemma dijkstra_path_simple_witness :
  exists d path,
    dijkstra G "Pune" "Hyderabad" = Ret (Finite d, path) /\ NoDup path.
Proof.
  apply (dijkstra_path_simple G "Pune" "Hyderabad").
  - apply wf_graphb_sound. vm_compute. reflexivity.
  - exists ["Pune"; "Satara"; "Kolhapur"; "Hyderabad"].
    split; [reflexivity|]. split; [reflexivity|].
    repeat constructor; vm_compute; discriminate.
Defined.

(** C10. Whenever [calculate_path] returns a path, every stop of the plan
    is at a city of that path and the stops come in the order of the
    path: first the stops made on the way, at cities the path leaves, in
    path order; then, if there is one, the stop at the destination. *)
Theorem stops_follow_path (g : graph) (prices : Dict.t Q)
    (start end_ : city) (battery_capacity : Q)
    (path : list city) (d : option distance) (cost : option Q)
    (plan : list stop) :
  calculate_path_on g prices start end_ battery_capacity
    = Ret (Some path, d, cost, Some plan) ->
  Forall (fun s => In (stop_city s) path) plan /\
  subseq (map stop_city plan) path /\
  last path start = end_ /\
  exists on_the_way at_destination,
    plan = on_the_way ++ at_destination /\
    subseq (map stop_city on_the_way) (removelast path) /\
    (at_destination = [] \/
     exists energy price, at_destination = [mk_stop end_ energy price]).
Proof.
  intros Hrun.
  destruct (calculate_path_on_cases _ _ _ _ _ _ Hrun)
    as [Hno|(d' & path' & rem & cost1 & plan1 & st & Hdijkstra & Hne
             & Hdrive & Harrive & Hr)]; [discriminate|].
  assert (path' = path) by (injection Hr; congruence). subst path'.
  destruct (dijkstra_shape _ _ _ _ Hdijkstra)
    as [Hinf|(c & p & Hshape)].
  { injection Hinf as _ ->. congruence. }
  injection Hshape as _ ->.
  destruct (drive_plan _ _ _ _ _ _ _ _ _ _ Hdrive)
    as (added & Hplan & _ & Hsub & _).
  simpl in Hplan. subst plan1. rewrite removelast_last in Hsub |- *.
  assert (Hdecomp : exists at_destination,
             plan = added ++ at_destination /\
             (at_destination = [] \/
              exists energy price,
                at_destination = [mk_stop end_ energy price])).
  { destruct (arrive_cases _ _ _ _ _ _ Harrive)
      as [[_ ->]|(_ & price & Hprice & ->)];
      cbn [fst snd] in Hr; injection Hr as _ _ ->.
    - exists []. split; [now rewrite app_nil_r|now left].
    - eexists. split; [reflexivity|]. right. eauto. }
  destruct Hdecomp as (dst & -> & Hdst).
  assert (Hall : subseq (map stop_city (added ++ dst)) (p ++ [end_])).
  { rewrite map_app. apply subseq_app; [assumption|].
    destruct Hdst as [->|(energy & price & ->)]; simpl.
    - apply subseq_nil_l.
    - apply subseq_take, subseq_nil. }
  split; [|split; [assumption|split; [apply last_last|]]].
  - rewrite Forall_forall. intros s Hs.
    apply (subseq_In _ _ Hall). now apply in_map.
  - exists added, dst. now repeat split.
Qed.

Lemma stops_follow_path_witness :
  Forall (fun s => In (stop_city s) ["Mumbai"; "Nashik"; "Pune"])
    [mk_stop "Mumbai" 0 (18 # 10);
     mk_stop "Nashik" 180 (15 # 10);
     mk_stop "Pune" 200 (12 # 10)] /\
  subseq
    (map stop_city
       [mk_stop "Mumbai" 0 (18 # 10);
        mk_stop "Nashik" 180 (15 # 10);
        mk_stop "Pune" 200 (12 # 10)])
    ["Mumbai"; "Nashik"; "Pune"] /\
  last ["Mumbai"; "Nashik"; "Pune"] "Mumbai" = "Pune" /\
  exists on_the_way at_destination,
    [mk_stop "Mumbai" 0 (18 # 10);
     mk_stop "Nashik" 180 (15 # 10);
     mk_stop "Pune" 200 (12 # 10)] = on_the_way ++ at_destination /\
    subseq (map stop_city on_the_way)
      (removelast ["Mumbai"; "Nashik"; "Pune"]) /\
    (at_destination = [] \/
     exists energy price, at_destination = [mk_stop "Pune" energy price]).
Proof.
  apply (stops_follow_path G charging_prices "Mumbai" "Pune" 100
           ["Mumbai"; "Nashik"; "Pune"] (Some (Finite 480))
           (Some ((0 + 0 * (18 # 10) + 180 * (15 # 10))
                  + Qabs (100 - 300) * (12 # 10)))).
  vm_compute. reflexivity.
Defined.

(** * Further properties of the code *)

(** ** The graph as [add_edge] builds it *)

Lemma get_None_keys {V : Type} (k : string) (d : Dict.t V) :
  Dict.get k d = None -> ~ In k (Dict.keys d).
Proof.
  induction d as [|[k' v'] d IH]; simpl; [intros _ []|].
  destruct (String.eqb_spec k k') as [->|Hne]; [discriminate|].
  intros H [Heq|Hin]; [congruence|now apply IH].
Qed.

Lemma NoDup_keys_add_node (n : city) (g : graph) :
  NoDup (Dict.keys g) -> NoDup (Dict.keys (add_node n g)).
Proof.
  intros Hnd. unfold add_node, Dict.mem.
  destruct (Dict.get n g) eqn:Hn; [assumption|].
  unfold Dict.keys. rewrite map_app. simpl.
  apply NoDup_app; [assumption|repeat constructor; intros []|].
  intros a Ha [<-|[]]. now apply (get_None_keys _ _ Hn).
Qed.

Lemma NoDup_keys_set_adj (u v : city) (d : Q) (g : graph) :
  NoDup (Dict.keys g) -> NoDup (Dict.keys (set_adj u v d g)).
Proof.
  intros Hnd. unfold set_adj.
  destruct (Dict.get u g); [now apply NoDup_keys_set|assumption].
Qed.

Lemma NoDup_keys_add_edge (g : graph) (u v : city) (d : Q) :
  NoDup (Dict.keys g) -> NoDup (Dict.keys (add_edge g u v d)).
Proof.
  intros Hnd. unfold add_edge.
  now apply NoDup_keys_set_adj, NoDup_keys_set_adj,
    NoDup_keys_add_node, NoDup_keys_add_node.
Qed.

Lemma edge_add_node (n : city) (g : graph) (a b : city) :
  edge_distance (add_node n g) a b = edge_distance g a b.
Proof.
  unfold edge_distance. rewrite get_add_node.
  destruct (Dict.get a g); [reflexivity|].
  destruct (String.eqb a n); reflexivity.
Qed.

Lemma edge_set_adj (u v : city) (d : Q) (g : graph) (a b : city) :
  is_city g u ->
  edge_distance (set_adj u v d g) a b =
  if (String.eqb a u && String.eqb b v)%bool then Some d
  else edge_distance g a b.
Proof.
  unfold is_city, edge_distance, set_adj. intros Hu.
  destruct (Dict.get u g) as [adj|] eqn:Hadj; [|congruence].
  destruct (String.eqb_spec a u) as [->|Hau]; simpl.
  - rewrite get_set_same, Hadj.
    destruct (String.eqb_spec b v) as [->|Hbv].
    + apply get_set_same.
    + now apply get_set_other.
  - now rewrite get_set_other.
Qed.

Lemma is_city_add_edge (g : graph) (u v : city) (d : Q) (n : city) :
  is_city (add_edge g u v d) n <-> is_city g n \/ n = u \/ n = v.
Proof.
  unfold add_edge.
  rewrite !is_city_set_adj, !is_city_add_node. tauto.
Qed.

(** The distance table after one [add_edge]. *)
Lemma edge_add_edge (g : graph) (u v : city) (d : Q) (a b : city) :
  edge_distance (add_edge g u v d) a b =
  if joins u v a b then Some d else edge_distance g a b.
Proof.
  unfold add_edge, joins.
  assert (Hu : is_city (add_node v (add_node u g)) u).
  { apply is_city_add_node. left. apply is_city_add_node. now right. }
  assert (Hv : is_city (add_node v (add_node u g)) v).
  { apply is_city_add_node. now right. }
  rewrite edge_set_adj by now apply is_city_set_adj.
  rewrite edge_set_adj by assumption.
  rewrite !edge_add_node.
  destruct (String.eqb a v && String.eqb b u)%bool;
    destruct (String.eqb a u && String.eqb b v)%bool; reflexivity.
Qed.

Lemma joins_sym (u v a b : city) : joins u v b a = joins u v a b.
Proof.
  unfold joins.
  destruct (String.eqb a u), (String.eqb b v), (String.eqb a v),
    (String.eqb b u); reflexivity.
Qed.

Lemma joins_true (u v a b : city) :
  joins u v a b = true <-> (a = u /\ b = v) \/ (a = v /\ b = u).
Proof.
  unfold joins. rewrite orb_true_iff, !andb_true_iff, !String.eqb_eq.
  reflexivity.
Qed.

Lemma undirected_add_edge (g : graph) (u v : city) (d : Q) :
  undirected g -> undirected (add_edge g u v d).
Proof.
  intros Hg a b. rewrite !edge_add_edge, (joins_sym u v a b).
  destruct (joins u v a b); [reflexivity|apply Hg].
Qed.

(** A property kept by every [add_edge] holds of the built graph. *)
Lemma from_edges_ind (P : graph -> Prop) :
  P [] ->
  (forall g u v d, P g -> P (add_edge g u v d)) ->
  forall es, P (from_edges es).
Proof.
  intros Hnil Hstep es. unfold from_edges.
  assert (Hgen : forall g, P g ->
            P (fold_left (fun g '(u, v, d) => add_edge g u v d) es g)).
  { induction es as [|[[u v] d] es IH]; intros g Hg; simpl; [assumption|].
    apply IH, Hstep, Hg. }
  now apply Hgen.
Qed.

Lemma from_edges_snoc (es : list (city * city * Q)) (u v : city) (d : Q) :
  from_edges (es ++ [(u, v, d)]) = add_edge (from_edges es) u v d.
Proof. unfold from_edges. now rewrite fold_left_app. Qed.

Lemma from_edges_undirected (es : list (city * city * Q)) :
  undirected (from_edges es).
Proof.
  apply (from_edges_ind undirected); [intros x y; reflexivity|].
  intros g a b w. apply undirected_add_edge.
Qed.

(** X1. The construction loop, on any list of roads, yields a graph
    whose cities are pairwise distinct, whose adjacency dictionaries
    have distinct keys and whose neighbours are all cities. *)
Theorem built_graph_well_formed (es : list (city * city * Q)) :
  NoDup (Dict.keys (from_edges es)) /\ wf_graph (from_edges es).
Proof.
  split; [|apply wf_from_edges].
  apply from_edges_ind; [constructor|].
  intros g u v d. apply NoDup_keys_add_edge.
Qed.

(** X2. The built graph is undirected: the distance stored for [a], [b]
    is the one stored for [b], [a], and a missing road is missing both
    ways. *)
Theorem built_graph_undirected (es : list (city * city * Q)) (a b : city) :
  edge_distance (from_edges es) a b = edge_distance (from_edges es) b a.
Proof.
  apply from_edges_undirected.
Qed.

(** X3. The roads of the built graph are exactly the listed pairs, in
    either order, and its cities are exactly the ends of listed roads. *)
Theorem built_graph_roads_and_cities (es : list (city * city * Q)) :
  (forall a b, is_edge (from_edges es) (a, b) <-> listed es a b) /\
  (forall n, is_city (from_edges es) n <-> endpoint es n).
Proof.
  induction es as [|[[u v] d] es [IHe IHc]] using rev_ind.
  - split.
    + intros a b. split; [intros H; now contradiction H|].
      intros (d & [[]|[]]).
    + intros n. split; [intros H; now contradiction H|].
      intros (u & v & d & [] & _).
  - rewrite from_edges_snoc. split.
    + intros a b. unfold is_edge. simpl. rewrite edge_add_edge.
      destruct (joins u v a b) eqn:Hj.
      * split; [intros _|discriminate].
        apply joins_true in Hj. exists d.
        destruct Hj as [[-> ->]|[-> ->]]; [left|right];
          apply in_or_app; right; now left.
      * specialize (IHe a b). unfold is_edge in IHe. simpl in IHe.
        rewrite IHe. unfold listed. split.
        -- intros (d' & [H|H]); exists d'; [left|right];
             apply in_or_app; now left.
        -- intros (d' & [H|H]); apply in_app_or in H;
             destruct H as [H|[H|[]]];
             try (exists d'; tauto);
             injection H as -> -> ->;
             exfalso; apply not_true_iff_false in Hj; apply Hj;
             apply joins_true; tauto.
    + intros n. rewrite is_city_add_edge, IHc. unfold endpoint. split.
      * intros [(u' & v' & d' & Hin & Hn)|Hn].
        -- exists u', v', d'. split; [apply in_or_app; now left|assumption].
        -- exists u, v, d. split; [apply in_or_app; right; now left|].
           assumption.
      * intros (u' & v' & d' & Hin & Hn). apply in_app_or in Hin.
        destruct Hin as [Hin|[Heq|[]]].
        -- left. now exists u', v', d'.
        -- injection Heq as -> -> ->. now right.
Qed.

Lemma listed_distance (es : list (city * city * Q)) (u v : city) (d : Q) :
  In (u, v, d) es ->
  (forall u' v' d', In (u', v', d') es -> joins u' v' u v = true -> d' = d) ->
  edge_distance (from_edges es) u v = Some d.
Proof.
  induction es as [|[[u0 v0] d0] es IH] using rev_ind; intros Hin Hsame;
    [destruct Hin|].
  rewrite from_edges_snoc, edge_add_edge.
  destruct (joins u0 v0 u v) eqn:Hj.
  - f_equal. apply (Hsame u0 v0 d0); [|assumption].
    apply in_or_app. right. now left.
  - apply IH.
    + apply in_app_or in Hin. destruct Hin as [Hin|[Heq|[]]]; [assumption|].
      injection Heq as -> -> ->. unfold joins in Hj.
      now rewrite !String.eqb_refl in Hj.
    + intros u' v' d' Hin'. apply Hsame. apply in_or_app. now left.
Qed.

(** X4. A road listed with one distance only, however often and in
    whichever order of its ends, has that distance in the built graph,
    in both directions. *)
Theorem listed_road_distance (es : list (city * city * Q))
    (u v : city) (d : Q) :
  In (u, v, d) es ->
  (forall u' v' d', In (u', v', d') es -> joins u' v' u v = true -> d' = d) ->
  edge_distance (from_edges es) u v = Some d /\
  edge_distance (from_edges es) v u = Some d.
Proof.
  intros Hin Hsame.
  pose proof (listed_distance es u v d Hin Hsame) as Huv.
  split; [assumption|].
  now rewrite <- (from_edges_undirected es u v).
Qed.

Lemma listed_road_distance_witness :
  edge_distance (from_edges edges) "Kolhapur" "Goa" = Some 200 /\
  edge_distance (from_edges edges) "Goa" "Kolhapur" = Some 200.
Proof.
  apply (listed_road_distance edges "Kolhapur" "Goa" 200).
  - simpl. tauto.
  - intros u' v' d' Hin. simpl in Hin.
    repeat (destruct Hin as [Hin|Hin];
            [injection Hin as <- <- <-; vm_compute;
             first [discriminate|reflexivity]|]).
    destruct Hin.
Defined.

(** ** dijkstra: the bound, the exception, the two directions *)

Lemma dijkstra_loop_more_fuel (g : graph) (end_ : city) (fuel : nat) :
  forall pq visited extra,
    dijkstra_loop fuel g end_ pq visited <> OutOfFuel ->
    dijkstra_loop (fuel + extra) g end_ pq visited
    = dijkstra_loop fuel g end_ pq visited.
Proof.
  induction fuel as [|fuel IH]; intros pq visited extra.
  - simpl. destruct (heappop pq) as [[[[cost node] path] rest]|] eqn:Hpop;
      [congruence|].
    intros _. destruct extra; simpl; now rewrite Hpop.
  - simpl. destruct (heappop pq) as [[[[cost node] path] rest]|];
      [|reflexivity].
    destruct (in_set node visited); [apply IH|].
    destruct (String.eqb node end_); [reflexivity|].
    destruct (Dict.get node g); [apply IH|reflexivity].
Qed.

(** X5. On every graph the [while] loop of [dijkstra] ends within
    [1 + total_degree g] iterations, and allowing it more iterations
    does not change what it returns. *)
Theorem dijkstra_bound_is_enough (g : graph) (start end_ : city)
    (extra : nat) :
  dijkstra g start end_ <> OutOfFuel /\
  dijkstra_loop (S (total_degree g) + extra) g end_ [(0, start, [])] []
  = dijkstra g start end_.
Proof.
  split; [apply dijkstra_terminates|].
  apply dijkstra_loop_more_fuel, dijkstra_terminates.
Qed.

Lemma dijkstra_unknown_start (g : graph) (start end_ : city) :
  ~ is_city g start -> start <> end_ ->
  dijkstra g start end_ = KeyError start.
Proof.
  unfold is_city, dijkstra. intros Hcity Hne. simpl.
  destruct (String.eqb_spec start end_) as [Heq|_]; [contradiction|].
  destruct (Dict.get start g); [|reflexivity].
  exfalso. apply Hcity. discriminate.
Qed.

Lemma dijkstra_same_city (g : graph) (start : city) :
  dijkstra g start start = Ret (Finite 0, [start]).
Proof. unfold dijkstra. simpl. now rewrite String.eqb_refl. Qed.

Lemma is_city_dec (g : graph) (n : city) : {is_city g n} + {~ is_city g n}.
Proof.
  unfold is_city. destruct (Dict.get n g); [left; discriminate|right].
  intros H. now apply H.
Qed.

(** X6. On a well-formed graph [dijkstra] raises [KeyError] in one case
    only: the start is not a city of the graph and differs from the
    destination; the key it reports is the start.  An unknown
    destination never raises. *)
Theorem dijkstra_raises_iff (g : graph) (start end_ key : city) :
  wf_graph g ->
  (dijkstra g start end_ = KeyError key <->
   key = start /\ ~ is_city g start /\ start <> end_).
Proof.
  intros Hwf. split.
  - intros Hraise.
    destruct (is_city_dec g start) as [Hcity|Hcity].
    + destruct (dijkstra_correct g start end_ Hwf (or_introl Hcity))
        as (r & Hr & _). congruence.
    + destruct (string_dec start end_) as [Heq|Hne].
      * destruct (dijkstra_correct g start end_ Hwf (or_intror Heq))
          as (r & Hr & _). congruence.
      * rewrite (dijkstra_unknown_start g start end_ Hcity Hne) in Hraise.
        injection Hraise as <-. now repeat split.
  - intros (-> & Hcity & Hne). now apply dijkstra_unknown_start.
Qed.

Lemma dijkstra_raises_iff_witness :
  dijkstra G "" "Goa" = KeyError "" <->
  "" = "" /\ ~ is_city G "" /\ "" <> "Goa".
Proof.
  apply (dijkstra_raises_iff G "" "Goa" "").
  apply wf_graphb_sound. vm_compute. reflexivity.
Defined.

(** *** Routes read backwards *)

Lemma legs_rev (q : list city) :
  legs (rev q) = rev (map swap_leg (legs q)).
Proof.
  induction q as [|a|a b rest IH] using path_ind2; try reflexivity.
  change (legs (a :: b :: rest)) with ((a, b) :: legs (b :: rest)).
  change (rev (a :: b :: rest)) with ((rev rest ++ [b]) ++ [a]).
  rewrite legs_snoc. simpl map. simpl rev at 2.
  f_equal. exact IH.
Qed.

Lemma sum_snoc {A : Type} (f : A -> Q) (l : list A) (x : A) :
  fold_left (fun acc a => acc + f a) (l ++ [x]) 0
  == fold_left (fun acc a => acc + f a) l 0 + f x.
Proof. rewrite fold_left_app. simpl. reflexivity. Qed.

Lemma sum_cons {A : Type} (f : A -> Q) (l : list A) (x : A) :
  fold_left (fun acc a => acc + f a) (x :: l) 0
  == f x + fold_left (fun acc a => acc + f a) l 0.
Proof. simpl. rewrite fold_left_plus_shift. ring. Qed.

Lemma sum_rev_map {A : Type} (f : A -> Q) (h : A -> A) (l : list A) :
  (forall a, f (h a) == f a) ->
  fold_left (fun acc a => acc + f a) (rev (map h l)) 0
  == fold_left (fun acc a => acc + f a) l 0.
Proof.
  intros Hf. induction l as [|x l IH]; [reflexivity|].
  simpl map. simpl rev. rewrite sum_snoc, sum_cons, IH, Hf. ring.
Qed.

Lemma leg_distance_swap (g : graph) (leg : city * city) :
  undirected g -> leg_distance g (swap_leg leg) = leg_distance g leg.
Proof.
  intros Hg. unfold leg_distance, swap_leg. simpl. now rewrite Hg.
Qed.

Lemma route_length_rev (g : graph) (q : list city) :
  undirected g -> route_length g (rev q) == route_length g q.
Proof.
  intros Hg. unfold route_length. rewrite legs_rev.
  apply sum_rev_map. intros leg. now rewrite leg_distance_swap.
Qed.

Lemma is_route_rev (g : graph) (s e : city) (q : list city) :
  undirected g -> is_route g s e q -> is_route g e s (rev q).
Proof.
  intros Hg (Hhd & Hlast & Hlegs).
  destruct q as [|a q]; [discriminate|]. injection Hhd as ->.
  split; [|split].
  - destruct (exists_last (l := s :: q)) as (p & z & Heq); [discriminate|].
    rewrite Heq in Hlast |- *. rewrite last_last in Hlast. subst z.
    now rewrite rev_unit.
  - simpl. apply last_last.
  - rewrite legs_rev. apply Forall_rev. rewrite Forall_map.
    eapply Forall_impl; [|exact Hlegs].
    intros leg Hleg. unfold is_edge, swap_leg in *. simpl.
    now rewrite Hg.
Qed.

(** X7. On a graph built with [add_edge] whose distances are
    non-negative, the total that [dijkstra] returns from [a] to [b] is
    the total it returns from [b] to [a] (the two paths may differ). *)
Theorem dijkstra_same_distance_both_ways (es : list (city * city * Q))
    (a b : city) :
  nonneg_distances (from_edges es) -> connected (from_edges es) a b ->
  exists d path d' path',
    dijkstra (from_edges es) a b = Ret (Finite d, path) /\
    dijkstra (from_edges es) b a = Ret (Finite d', path') /\
    d == d'.
Proof.
  intros Hnn Hconn.
  assert (Hwf := wf_from_edges es).
  assert (Hun := from_edges_undirected es).
  assert (Hback : connected (from_edges es) b a).
  { destruct Hconn as [q Hq]. exists (rev q). now apply is_route_rev. }
  destruct (dijkstra_connected _ a b Hwf Hconn)
    as (d & path & Heq & Hroute & Hlen & _ & Hmin).
  destruct (dijkstra_connected _ b a Hwf Hback)
    as (d' & path' & Heq' & Hroute' & Hlen' & _ & Hmin').
  simpl in Hroute, Hlen, Hroute', Hlen'.
  exists d, path, d', path'. split; [assumption|]. split; [assumption|].
  pose proof (Hmin Hnn _ (is_route_rev _ _ _ _ Hun Hroute')) as H1.
  pose proof (Hmin' Hnn _ (is_route_rev _ _ _ _ Hun Hroute)) as H2.
  rewrite route_length_rev in H1, H2 by assumption.
  rewrite <- Hlen' in H1. rewrite <- Hlen in H2.
  apply Qle_antisym; assumption.
Qed.

Lemma dijkstra_same_distance_both_ways_witness :
  exists d path d' path',
    dijkstra (from_edges edges) "Nashik" "Hyderabad" = Ret (Finite d, path) /\
    dijkstra (from_edges edges) "Hyderabad" "Nashik"
      = Ret (Finite d', path') /\
    d == d'.
Proof.
  apply (dijkstra_same_distance_both_ways edges "Nashik" "Hyderabad").
  - apply nonneg_distancesb_sound. vm_compute. reflexivity.
  - exists ["Nashik"; "Mumbai"; "Goa"; "Hyderabad"].
    split; [reflexivity|]. split; [reflexivity|].
    repeat constructor; vm_compute; discriminate.
Defined.

(** ** calculate_path: exceptions, energy, costs *)

Lemma dijkstra_returned_post (g : graph) (start end_ : city)
    (r : distance * list city) :
  wf_graph g -> dijkstra g start end_ = Ret r ->
  dijkstra_post g start end_ r.
Proof.
  intros Hwf Hr.
  assert (Hstart : is_city g start \/ start = end_).
  { destruct (is_city_dec g start) as [H|H]; [now left|].
    destruct (string_dec start end_) as [Heq|Hne]; [now right|].
    rewrite (dijkstra_unknown_start g start end_ H Hne) in Hr.
    discriminate. }
  destruct (dijkstra_correct g start end_ Hwf Hstart) as (r' & Hr' & Hpost).
  congruence.
Qed.

Lemma route_last_city (g : graph) (start end_ : city) (path : list city) :
  is_route g start end_ path ->
  Forall (is_city g) path -> is_city g end_.
Proof.
  intros (Hhd & Hlast & _) Hcities.
  destruct (exists_last (l := path)) as (p & z & ->).
  { intros ->. discriminate. }
  rewrite last_last in Hlast. subst z.
  rewrite Forall_forall in Hcities. apply Hcities.
  apply in_or_app. right. now left.
Qed.

(** With a price for every city, the simulation of a route that starts
    at a city of the graph runs to its end. *)
Lemma simulate_route_returns (g : graph) (prices : Dict.t Q)
    (start end_ : city) (battery_capacity : Q)
    (d : distance) (path : list city) :
  wf_graph g -> prices_cover prices g -> is_city g start ->
  is_route g start end_ path ->
  exists cost plan,
    simulate g prices end_ battery_capacity (d, path)
    = Ret (Some path, Some d, Some cost, Some plan).
Proof.
  intros Hwf Hprices Hstart Hroute.
  assert (Hcities : Forall (is_city g) path).
  { destruct Hroute as (Hhd & _ & Hlegs).
    destruct path as [|a path]; [discriminate|].
    injection Hhd as ->. now apply route_cities. }
  pose proof (route_last_city _ _ _ _ Hroute Hcities) as Hend.
  destruct (drive_returns g prices battery_capacity path)
    with (st := (battery_capacity, 0, @nil stop))
    as ([[rem cost] plan] & Hdrive).
  { apply Hroute. }
  { intros n Hn. apply Hprices. rewrite Forall_forall in Hcities.
    apply Hcities. destruct path as [|a path]; [destruct Hn|].
    destruct (exists_last (l := a :: path)) as (p & z & Heq);
      [discriminate|].
    rewrite Heq in Hn |- *. rewrite removelast_last in Hn.
    apply in_or_app. now left. }
  destruct (arrive_returns prices end_ (rem, cost, plan) (Hprices _ Hend))
    as ([[rem' cost'] plan'] & Harrive).
  exists cost', plan'. unfold simulate.
  destruct path as [|a path]; [destruct Hroute; discriminate|].
  rewrite Hdrive. cbn [bind]. rewrite Harrive. reflexivity.
Qed.

(** X8. On a well-formed graph in which every city has a price,
    [calculate_path] from a city of the graph never raises, whatever the
    destination and the capacity: it returns the four [None]s or a full
    result. *)
Theorem calculate_path_never_raises (g : graph) (prices : Dict.t Q)
    (start end_ : city) (battery_capacity : Q) :
  wf_graph g -> prices_cover prices g -> is_city g start ->
  calculate_path_on g prices start end_ battery_capacity = Ret no_route \/
  exists path d cost plan,
    calculate_path_on g prices start end_ battery_capacity
    = Ret (Some path, Some (Finite d), Some cost, Some plan).
Proof.
  intros Hwf Hprices Hstart.
  destruct (dijkstra_correct g start end_ Hwf (or_introl Hstart))
    as ([[d|] path] & Hr & Hpost).
  - right. destruct Hpost as (Hroute & _). simpl in Hroute.
    destruct (simulate_route_returns g prices start end_ battery_capacity
                (Finite d) path Hwf Hprices Hstart Hroute)
      as (cost & plan & Hsim).
    exists path, d, cost, plan.
    unfold calculate_path_on. rewrite Hr. exact Hsim.
  - left. destruct Hpost as [Hpath _]. simpl in Hpath. subst path.
    eapply calculate_path_on_no_route. eassumption.
Qed.

Lemma calculate_path_never_raises_witness :
  calculate_path_on G charging_prices "Goa" "Pune" (-40) = Ret no_route \/
  exists path d cost plan,
    calculate_path_on G charging_prices "Goa" "Pune" (-40)
    = Ret (Some path, Some (Finite d), Some cost, Some plan).
Proof.
  apply (calculate_path_never_raises G charging_prices "Goa" "Pune" (-40)).
  - apply wf_graphb_sound. vm_compute. reflexivity.
  - apply prices_coverb_sound. vm_compute. reflexivity.
  - vm_compute. discriminate.
Defined.

Lemma nonneg_pricesb_sound (prices : Dict.t Q) :
  nonneg_pricesb prices = true -> nonneg_prices prices.
Proof.
  unfold nonneg_pricesb. rewrite forallb_forall. intros H n price Hget.
  specialize (H (n, price) (get_In _ _ _ Hget)). simpl in H.
  now apply Qle_bool_iff.
Qed.

Lemma drive_cost_nonneg (g : graph) (prices : Dict.t Q)
    (battery_capacity : Q) (path : list city) :
  nonneg_distances g -> nonneg_prices prices ->
  forall rem cost plan rem' cost' plan',
    drive g prices battery_capacity path (rem, cost, plan)
      = Ret (rem', cost', plan') ->
    rem <= battery_capacity -> 0 <= cost ->
    0 <= cost'.
Proof.
  intros Hnn Hpr.
  induction path as [|a|a b rest IH] using path_ind2;
    intros rem cost plan rem' cost' plan' Hrun Hrem Hcost.
  - now injection Hrun as <- <- <-.
  - now injection Hrun as <- <- <-.
  - destruct (drive_leg _ _ _ _ _ _ _ _ _ _ Hrun)
      as (dist & Hedge & [[Hlt [price Hprice]]|Hle]);
      pose proof (Hnn _ _ _ Hedge) as Hdist.
    + rewrite (drive_charge _ _ _ _ _ _ _ _ _ _ _ Hedge Hlt Hprice) in Hrun.
      apply (IH _ _ _ _ _ _ Hrun); [lra|].
      assert (0 <= (battery_capacity - rem) * price).
      { apply Qmult_le_0_compat; [lra|]. eapply Hpr; eassumption. }
      lra.
    + rewrite (drive_keep _ _ _ _ _ _ _ _ _ _ Hedge Hle) in Hrun.
      apply (IH _ _ _ _ _ _ Hrun); [lra|assumption].
Qed.

(** X10. With non-negative distances and non-negative prices the total
    cost that [calculate_path] returns is never negative, for every
    capacity, negative ones included. *)
Theorem total_cost_nonneg (g : graph) (prices : Dict.t Q)
    (start end_ : city) (battery_capacity : Q)
    (path : option (list city)) (d : option distance) (cost : Q)
    (plan : option (list stop)) :
  nonneg_distances g -> nonneg_prices prices ->
  calculate_path_on g prices start end_ battery_capacity
    = Ret (path, d, Some cost, plan) ->
  0 <= cost.
Proof.
  intros Hnn Hpr Hrun.
  destruct (calculate_path_on_cases _ _ _ _ _ _ Hrun)
    as [Hno|(d' & path' & rem & cost1 & plan1 & st & _ & _
             & Hdrive & Harrive & Hr)]; [discriminate|].
  pose proof (drive_cost_nonneg _ _ _ _ Hnn Hpr _ _ _ _ _ _ Hdrive
                (Qle_refl _) (Qle_refl _)) as Hcost1.
  destruct (arrive_cases _ _ _ _ _ _ Harrive)
    as [[_ ->]|(_ & price & Hprice & ->)];
    cbn [fst snd] in Hr; injection Hr as _ _ -> _; [assumption|].
  assert (0 <= Qabs rem * price).
  { apply Qmult_le_0_compat; [apply Qabs_nonneg|].
    eapply Hpr; eassumption. }
  lra.
Qed.

Lemma total_cost_nonneg_witness :
  0 <= (0 + 0 * (18 # 10) + 180 * (15 # 10)) + Qabs (100 - 300) * (12 # 10).
Proof.
  apply (total_cost_nonneg G charging_prices "Mumbai" "Pune" 100
           (Some ["Mumbai"; "Nashik"; "Pune"]) (Some (Finite 480)) _
           (Some [mk_stop "Mumbai" 0 (18 # 10);
                  mk_stop "Nashik" 180 (15 # 10);
                  mk_stop "Pune" 200 (12 # 10)])).
  - apply nonneg_distancesb_sound. vm_compute. reflexivity.
  - apply nonneg_pricesb_sound. vm_compute. reflexivity.
  - vm_compute. reflexivity.
Defined.

Lemma subseq_NoDup {A : Type} (xs ys : list A) :
  subseq xs ys -> NoDup ys -> NoDup xs.
Proof.
  intros H. induction H; intros Hnd.
  - constructor.
  - inversion Hnd; subst. auto.
  - inversion Hnd as [|? ? Hnot Hnd']; subst. constructor; [|auto].
    intros Hin. apply Hnot. eapply subseq_In; eassumption.
Qed.

(** The cities of the plan, in order, are picked from the path. *)
Lemma plan_cities_subseq (g : graph) (prices : Dict.t Q)
    (start end_ : city) (battery_capacity : Q)
    (path : list city) (d : option distance) (cost : option Q)
    (plan : list stop) :
  calculate_path_on g prices start end_ battery_capacity
    = Ret (Some path, d, cost, Some plan) ->
  subseq (map stop_city plan) path.
Proof.
  intros Hrun.
  destruct (calculate_path_on_cases _ _ _ _ _ _ Hrun)
    as [Hno|(d' & path' & rem & cost1 & plan1 & st & Hdijkstra & Hne
             & Hdrive & Harrive & Hr)]; [discriminate|].
  assert (path' = path) by (injection Hr; congruence). subst path'.
  destruct (dijkstra_shape _ _ _ _ Hdijkstra) as [Hinf|(c & p & Hshape)].
  { injection Hinf as _ ->. congruence. }
  injection Hshape as _ ->.
  destruct (drive_plan _ _ _ _ _ _ _ _ _ _ Hdrive)
    as (added & Hplan & _ & Hsub & _).
  simpl in Hplan. subst plan1. rewrite removelast_last in Hsub.
  destruct (arrive_cases _ _ _ _ _ _ Harrive)
    as [[_ ->]|(_ & price & Hprice & ->)];
    cbn [fst snd] in Hr; injection Hr as _ _ ->.
  - rewrite <- (app_nil_r (map stop_city added)).
    apply subseq_app; [assumption|apply subseq_nil_l].
  - rewrite map_app. apply subseq_app; [assumption|].
    simpl. apply subseq_take, subseq_nil.
Qed.

(** X11. On a well-formed graph no city appears twice in the charging
    plan, and the plan has no more stops than the path has cities. *)
Theorem one_stop_per_city (g : graph) (prices : Dict.t Q)
    (start end_ : city) (battery_capacity : Q)
    (path : list city) (d : option distance) (cost : option Q)
    (plan : list stop) :
  wf_graph g ->
  calculate_path_on g prices start end_ battery_capacity
    = Ret (Some path, d, cost, Some plan) ->
  NoDup (map stop_city plan) /\ (length plan <= length path)%nat.
Proof.
  intros Hwf Hrun.
  pose proof (plan_cities_subseq _ _ _ _ _ _ _ _ _ Hrun) as Hsub.
  destruct (calculate_path_on_cases _ _ _ _ _ _ Hrun)
    as [Hno|(d' & path' & rem & cost1 & plan1 & st & Hdijkstra & Hne
             & _ & _ & Hr)]; [discriminate|].
  assert (path' = path) by (injection Hr; congruence). subst path'.
  pose proof (dijkstra_returned_post _ _ _ _ Hwf Hdijkstra) as Hpost.
  unfold dijkstra_post in Hpost. simpl in Hpost.
  destruct d' as [dist|]; [|destruct Hpost; congruence].
  destruct Hpost as (_ & _ & Hnd & _).
  assert (HnoDup : NoDup (map stop_city plan))
    by (eapply subseq_NoDup; eassumption).
  split; [assumption|].
  rewrite <- (length_map stop_city).
  apply NoDup_incl_length; [assumption|].
  intros c Hc. eapply subseq_In; eassumption.
Qed.

Lemma one_stop_per_city_witness :
  NoDup (map stop_city
           [mk_stop "Mumbai" 0 (18 # 10);
            mk_stop "Nashik" 180 (15 # 10);
            mk_stop "Pune" 200 (12 # 10)]) /\
  (length [mk_stop "Mumbai" 0 (18 # 10);
           mk_stop "Nashik" 180 (15 # 10);
           mk_stop "Pune" 200 (12 # 10)]
   <= length ["Mumbai"; "Nashik"; "Pune"])%nat.
Proof.
  apply (one_stop_per_city G charging_prices "Mumbai" "Pune" 100
           ["Mumbai"; "Nashik"; "Pune"] (Some (Finite 480))
           (Some ((0 + 0 * (18 # 10) + 180 * (15 # 10))
                  + Qabs (100 - 300) * (12 # 10)))).
  - apply wf_graphb_sound. vm_compute. reflexivity.
  - vm_compute. reflexivity.
Defined.

(** With a negative capacity the battery is below zero before every leg,
    so every leg begins with a stop. *)
Lemma drive_negative (g : graph) (prices : Dict.t Q) (battery_capacity : Q)
    (path : list city) :
  nonneg_distances g -> battery_capacity < 0 ->
  forall rem cost plan rem' cost' plan',
    drive g prices battery_capacity path (rem, cost, plan)
      = Ret (rem', cost', plan') ->
    rem < 0 ->
    rem' < 0 /\
    exists added,
      plan' = plan ++ added /\ map stop_city added = removelast path.
Proof.
  intros Hnn Hcap.
  induction path as [|a|a b rest IH] using path_ind2;
    intros rem cost plan rem' cost' plan' Hrun Hrem.
  - injection Hrun as <- <- <-. split; [assumption|].
    exists []. now rewrite app_nil_r.
  - injection Hrun as <- <- <-. split; [assumption|].
    exists []. now rewrite app_nil_r.
  - destruct (drive_leg _ _ _ _ _ _ _ _ _ _ Hrun)
      as (dist & Hedge & [[Hlt [price Hprice]]|Hle]);
      pose proof (Hnn _ _ _ Hedge) as Hdist; [|lra].
    rewrite (drive_charge _ _ _ _ _ _ _ _ _ _ _ Hedge Hlt Hprice) in Hrun.
    destruct (IH _ _ _ _ _ _ Hrun) as (Hrem' & added & -> & Hcities); [lra|].
    split; [assumption|].
    exists (mk_stop a (battery_capacity - rem) price :: added).
    split; [now rewrite <- app_assoc|].
    change (removelast (a :: b :: rest)) with (a :: removelast (b :: rest)).
    simpl. now rewrite Hcities.
Qed.

(** X12. [calculate_path] accepts a negative capacity; with non-negative
    distances it then plans a stop at every city of the path, the
    destination included, in path order. *)
Theorem negative_capacity_stops_everywhere (g : graph) (prices : Dict.t Q)
    (start end_ : city) (battery_capacity : Q)
    (path : list city) (d : option distance) (cost : option Q)
    (plan : list stop) :
  nonneg_distances g -> battery_capacity < 0 ->
  calculate_path_on g prices start end_ battery_capacity
    = Ret (Some path, d, cost, Some plan) ->
  map stop_city plan = path.
Proof.
  intros Hnn Hcap Hrun.
  destruct (calculate_path_on_cases _ _ _ _ _ _ Hrun)
    as [Hno|(d' & path' & rem & cost1 & plan1 & st & Hdijkstra & Hne
             & Hdrive & Harrive & Hr)]; [discriminate|].
  assert (path' = path) by (injection Hr; congruence). subst path'.
  destruct (dijkstra_shape _ _ _ _ Hdijkstra) as [Hinf|(c & p & Hshape)].
  { injection Hinf as _ ->. congruence. }
  injection Hshape as _ ->.
  destruct (drive_negative _ _ _ _ Hnn Hcap _ _ _ _ _ _ Hdrive Hcap)
    as (Hrem & added & Hplan & Hcities).
  simpl in Hplan. subst plan1. rewrite removelast_last in Hcities.
  destruct (arrive_cases _ _ _ _ _ _ Harrive)
    as [[Hpos _]|(_ & price & _ & ->)]; [lra|].
  cbn [fst snd] in Hr. injection Hr as _ _ ->.
  rewrite map_app, Hcities. reflexivity.
Qed.

Lemma negative_capacity_stops_everywhere_witness :
  map stop_city
    [mk_stop "Pune" (-5 - -5) (12 # 10);
     mk_stop "Satara" (-5 - (-5 - 120)) (15 # 10);
     mk_stop "Kolhapur" (Qabs (-5 - 180)) (18 # 10)]
  = ["Pune"; "Satara"; "Kolhapur"].
Proof.
  apply (negative_capacity_stops_everywhere G charging_prices
           "Pune" "Kolhapur" (-5) _ (Some (Finite 300))
           (Some (0 + (-5 - -5) * (12 # 10)
                  + (-5 - (-5 - 120)) * (15 # 10)
                  + Qabs (-5 - 180) * (18 # 10)))).
  - apply nonneg_distancesb_sound. vm_compute. reflexivity.
  - reflexivity.
  - vm_compute. reflexivity.
Defined.

(** X14. From a city to itself [calculate_path] looks nothing up in the
    graph: for every capacity that is not negative it returns the
    one-city path, distance 0, cost 0 and an empty plan, even for a name
    that is not in the graph. *)
Theorem same_city_trip (g : graph) (prices : Dict.t Q) (start : city)
    (battery_capacity : Q) :
  0 <= battery_capacity ->
  calculate_path_on g prices start start battery_capacity
  = Ret (Some [start], Some (Finite 0), Some 0, Some []).
Proof.
  intros Hcap. unfold calculate_path_on.
  rewrite dijkstra_same_city. cbn [bind]. unfold simulate.
  cbn [drive bind]. now rewrite arrive_enough.
Qed.

Lemma same_city_trip_witness :
  calculate_path_on G charging_prices "Atlantis" "Atlantis" 250
  = Ret (Some ["Atlantis"], Some (Finite 0), Some 0, Some []).
Proof.
  apply (same_city_trip G charging_prices "Atlantis" 250).
  discriminate.
Defined.

(** ** draw_graph *)

Lemma route_edges_legs (path : list city) : route_edges path = legs path.
Proof.
  unfold route_edges.
  induction path as [|a|a b rest IH] using path_ind2; try reflexivity.
  change (removelast (a :: b :: rest)) with (a :: removelast (b :: rest)).
  change (legs (a :: b :: rest)) with ((a, b) :: legs (b :: rest)).
  cbn [tl combine]. f_equal. exact IH.
Qed.

Lemma legs_length (path : list city) :
  length (legs path) = (length path - 1)%nat.
Proof.
  induction path as [|a|a b rest IH] using path_ind2; try reflexivity.
  change (legs (a :: b :: rest)) with ((a, b) :: legs (b :: rest)).
  simpl length in *. rewrite IH. lia.
Qed.

Lemma legs_In_fst (path : list city) (a b : city) :
  In (a, b) (legs path) -> In a path.
Proof.
  induction path as [|x|x y rest IH] using path_ind2.
  - intros [].
  - intros [].
  - change (legs (x :: y :: rest)) with ((x, y) :: legs (y :: rest)).
    intros [Heq|Hin]; [injection Heq as <- _; now left|].
    right. now apply IH.
Qed.

Lemma legs_NoDup (path : list city) : NoDup path -> NoDup (legs path).
Proof.
  induction path as [|a|a b rest IH] using path_ind2; intros Hnd.
  - constructor.
  - constructor.
  - change (legs (a :: b :: rest)) with ((a, b) :: legs (b :: rest)).
    inversion Hnd as [|? ? Hnot Hnd']; subst. constructor.
    + intros Hin. apply Hnot. eapply legs_In_fst. exact Hin.
    + now apply IH.
Qed.

(** X15. For the path that [dijkstra] returns between two connected
    cities, the edge list that [draw_graph] highlights,
    [zip(path[:-1], path[1:])], has one edge per leg, each of them a
    road of the graph, and no edge twice. *)
Theorem highlighted_edges_are_roads (g : graph) (start end_ : city) :
  wf_graph g -> connected g start end_ ->
  exists d path,
    dijkstra g start end_ = Ret (Finite d, path) /\
    Forall (is_edge g) (route_edges path) /\
    length (route_edges path) = (length path - 1)%nat /\
    NoDup (route_edges path).
Proof.
  intros Hwf Hconn.
  destruct (dijkstra_connected g start end_ Hwf Hconn)
    as (d & path & Heq & (_ & _ & Hlegs) & _ & Hnd & _).
  simpl in Hlegs, Hnd.
  exists d, path. rewrite route_edges_legs.
  split; [assumption|]. split; [assumption|].
  split; [apply legs_length|]. now apply legs_NoDup.
Qed.

Lemma highlighted_edges_are_roads_witness :
  exists d path,
    dijkstra G "Pune" "Goa" = Ret (Finite d, path) /\
    Forall (is_edge G) (route_edges path) /\
    length (route_edges path) = (length path - 1)%nat /\
    NoDup (route_edges path).
Proof.
  apply (highlighted_edges_are_roads G "Pune" "Goa").
  - apply wf_graphb_sound. vm_compute. reflexivity.
  - exists ["Pune"; "Satara"; "Kolhapur"; "Goa"].
    split; [reflexivity|]. split; [reflexivity|].
    repeat constructor; vm_compute; discriminate.
Defined.

(** ** find_route *)

Lemma report_no_error (io : text_io) (path : list city) (d : distance)
    (cost : Q) (plan : list stop) :
  existsb is_error (report io path d cost plan) = false.
Proof.
  unfold report. rewrite existsb_app. simpl.
  destruct plan as [|s plan]; [reflexivity|]. simpl.
  induction plan as [|s' plan IH]; [reflexivity|exact IH].
Qed.

(** X16. Whenever [find_route] comes back it has done one of two things:
    opened exactly one error dialog and touched nothing else, or drawn
    the path that [calculate_path] returned and rewritten the text box
    from it, without any dialog. *)
Theorem find_route_error_or_display (io : text_io) (g : graph)
    (prices : Dict.t Q) (start end_ battery_text : string)
    (events : list event) :
  find_route_on io g prices start end_ battery_text = Ret events ->
  (exists title message, events = [ShowError title message]) \/
  (exists battery_capacity path d cost plan,
     float io battery_text = Some battery_capacity /\
     start <> end_ /\
     calculate_path_on g prices start end_ battery_capacity
       = Ret (Some path, Some d, Some cost, Some plan) /\
     events = DrawGraph path :: report io path d cost plan /\
     existsb is_error events = false).
Proof.
  unfold find_route_on.
  destruct (float io battery_text) as [battery_capacity|] eqn:Hfloat.
  2:{ intros [= <-]. left. eauto. }
  destruct (String.eqb_spec start end_) as [Heq|Hne].
  { intros [= <-]. left. eauto. }
  destruct (calculate_path_on g prices start end_ battery_capacity)
    as [r| |] eqn:Hrun; cbn [bind]; try discriminate.
  destruct (calculate_path_on_cases _ _ _ _ _ _ Hrun)
    as [->|(d & path & rem & cost1 & plan1 & st & _ & Hpath & _ & _ & ->)].
  - intros [= <-]. left. eauto.
  - destruct path as [|c p]; [congruence|].
    intros [= <-]. right.
    exists battery_capacity, (c :: p), d, (snd (fst st)), (snd st).
    split; [reflexivity|]. split; [assumption|].
    split; [exact Hrun|]. split; [reflexivity|].
    apply (report_no_error io (c :: p) d (snd (fst st)) (snd st)).
Qed.

Lemma find_route_error_or_display_witness :
  (exists title message,
     [ShowError "Invalid Input"
        "Please enter a valid battery capacity (number)."]
     = [ShowError title message]) \/
  (exists battery_capacity path d cost plan,
     float digits_io "4oo" = Some battery_capacity /\
     "Mumbai" <> "Goa" /\
     calculate_path_on G charging_prices "Mumbai" "Goa" battery_capacity
       = Ret (Some path, Some d, Some cost, Some plan) /\
     [ShowError "Invalid Input"
        "Please enter a valid battery capacity (number)."]
     = DrawGraph path :: report digits_io path d cost plan /\
     existsb is_error
       [ShowError "Invalid Input"
          "Please enter a valid battery capacity (number)."] = false).
Proof.
  apply (find_route_error_or_display digits_io G charging_prices
           "Mumbai" "Goa" "4oo").
  vm_compute. reflexivity.
Defined.

(** X17. [find_route] checks that the capacity is a number and that the
    two cities differ, nothing more: for two different connected cities
    of a well-formed, priced graph and any number in the field, zero and
    negative ones included, it opens no dialog, draws a route from start
    to end and reports its length, which no route undercuts when
    distances are non-negative; and when the capacity covers that length
    the plan it reports is empty. *)
Theorem find_route_displays_shortest (io : text_io) (g : graph)
    (prices : Dict.t Q) (start end_ battery_text : string)
    (battery_capacity : Q) :
  wf_graph g -> prices_cover prices g ->
  is_city g start -> connected g start end_ -> start <> end_ ->
  float io battery_text = Some battery_capacity ->
  exists d path cost plan,
    find_route_on io g prices start end_ battery_text
      = Ret (DrawGraph path :: report io path (Finite d) cost plan) /\
    is_route g start end_ path /\
    d = route_length g path /\
    (nonneg_distances g ->
     (forall q, is_route g start end_ q -> d <= route_length g q) /\
     (d <= battery_capacity -> plan = [] /\ cost = 0)).
Proof.
  intros Hwf Hprices Hstart Hconn Hne Hfloat.
  destruct (dijkstra_connected g start end_ Hwf Hconn)
    as (d & path & Heq & Hroute & Hlen & _ & Hmin).
  simpl in Hroute, Hlen.
  destruct (simulate_route_returns g prices start end_ battery_capacity
              (Finite d) path Hwf Hprices Hstart Hroute)
    as (cost & plan & Hsim).
  assert (Hrun : calculate_path_on g prices start end_ battery_capacity
                 = Ret (Some path, Some (Finite d), Some cost, Some plan)).
  { unfold calculate_path_on. rewrite Heq. exact Hsim. }
  assert (Hpath : path <> []).
  { destruct Hroute as [Hhd _]. intros ->. discriminate. }
  exists d, path, cost, plan. split; [|split; [assumption|split]].
  - unfold find_route_on. rewrite Hfloat.
    destruct (String.eqb_spec start end_) as [|_]; [contradiction|].
    rewrite Hrun. cbn [bind].
    destruct path as [|c p]; [congruence|reflexivity].
  - assumption.
  - intros Hnn. split; [now apply Hmin|].
    intros Hcap.
    destruct (drive_enough g prices battery_capacity path Hnn)
      with (rem := battery_capacity) (cost := 0) (plan := @nil stop)
      as (rem' & Hdrive & Hrem').
    { apply Hroute. }
    { now rewrite <- Hlen. }
    rewrite (calculate_path_on_route _ _ _ _ _ _ _ Heq Hpath) in Hrun.
    rewrite Hdrive in Hrun. cbn [bind] in Hrun.
    rewrite arrive_enough in Hrun by (rewrite Hrem', <- Hlen; lra).
    cbn [bind] in Hrun. injection Hrun as <- <-. now split.
Qed.

Lemma find_route_displays_shortest_witness :
  exists d path cost plan,
    find_route_on digits_io G charging_prices "Pune" "Kolhapur" "-5"
      = Ret (DrawGraph path :: report digits_io path (Finite d) cost plan) /\
    is_route G "Pune" "Kolhapur" path /\
    d = route_length G path /\
    (nonneg_distances G ->
     (forall q, is_route G "Pune" "Kolhapur" q -> d <= route_length G q) /\
     (d <= -5 -> plan = [] /\ cost = 0)).
Proof.
  apply (find_route_displays_shortest digits_io G charging_prices
           "Pune" "Kolhapur" "-5" (-5)).
  - apply wf_graphb_sound. vm_compute. reflexivity.
  - apply prices_coverb_sound. vm_compute. reflexivity.
  - vm_compute. discriminate.
  - exists ["Pune"; "Satara"; "Kolhapur"].
    split; [reflexivity|]. split; [reflexivity|].
    repeat constructor; vm_compute; discriminate.
  - discriminate.
  - vm_compute. reflexivity.
Defined.

(** X18. A start name that is not a city of the graph (the box left
    empty, say) with a different destination and a number in the field
    makes [find_route] end in the [KeyError] that [dijkstra] raises:
    no dialog, no drawing. *)
Theorem find_route_unknown_start (io : text_io) (g : graph)
    (prices : Dict.t Q) (start end_ battery_text : string)
    (battery_capacity : Q) :
  ~ is_city g start -> start <> end_ ->
  float io battery_text = Some battery_capacity ->
  find_route_on io g prices start end_ battery_text = KeyError start.
Proof.
  intros Hcity Hne Hfloat. unfold find_route_on. rewrite Hfloat.
  destruct (String.eqb_spec start end_) as [|_]; [contradiction|].
  unfold calculate_path_on.
  now rewrite (dijkstra_unknown_start g start end_ Hcity Hne).
Qed.

Lemma find_route_unknown_start_witness :
  find_route_on digits_io G charging_prices "" "Goa" "400" = KeyError "".
Proof.
  apply (find_route_unknown_start digits_io G charging_prices "" "Goa" "400"
           400).
  - vm_compute. intros H. now apply H.
  - discriminate.
  - vm_compute. reflexivity.
Defined.

Lemma route_reaches_city (g : graph) (start end_ : city) :
  wf_graph g -> is_city g start -> connected g start end_ ->
  is_city g end_.
Proof.
  intros Hwf Hstart (path & Hroute).
  apply (route_last_city g start end_ path Hroute).
  destruct Hroute as (Hhd & _ & Hlegs).
  destruct path as [|a path]; [discriminate|].
  injection Hhd as ->. now apply route_cities.
Qed.

(** X19. A destination name that is not a city of the graph, with a
    city as start and a number in the field, raises nothing: the search
    exhausts the graph and the only thing shown is the dialog
    "No path found between selected cities!". *)
Theorem find_route_unknown_destination (io : text_io) (g : graph)
    (prices : Dict.t Q) (start end_ battery_text : string)
    (battery_capacity : Q) :
  wf_graph g -> is_city g start -> ~ is_city g end_ ->
  float io battery_text = Some battery_capacity ->
  find_route_on io g prices start end_ battery_text
  = Ret [ShowError "Error" "No path found between selected cities!"].
Proof.
  intros Hwf Hstart Hend Hfloat.
  assert (Hne : start <> end_) by (intros ->; contradiction).
  assert (Hno : ~ connected g start end_).
  { intros Hconn. apply Hend. eapply route_reaches_city; eassumption. }
  destruct (dijkstra_correct g start end_ Hwf (or_introl Hstart))
    as ([[d|] path] & Heq & Hpost).
  { exfalso. apply Hno. exists path. apply Hpost. }
  destruct Hpost as [Hpath _]. simpl in Hpath. subst path.
  unfold find_route_on. rewrite Hfloat.
  destruct (String.eqb_spec start end_) as [|_]; [contradiction|].
  now rewrite (calculate_path_on_no_route _ _ _ _ _ _ Heq).
Qed.

Lemma find_route_unknown_destination_witness :
  find_route_on digits_io G charging_prices "Satara" "" "120"
  = Ret [ShowError "Error" "No path found between selected cities!"].
Proof.
  apply (find_route_unknown_destination digits_io G charging_prices
           "Satara" "" "120" 120).
  - apply wf_graphb_sound. vm_compute. reflexivity.
  - vm_compute. discriminate.
  - vm_compute. intros H. now apply H.
  - vm_compute. reflexivity.
Defined.
